(** * Round-robin pairing engine ([generate_round_robin], bot.py)

    A shallow embedding of the scheduler of the round-robin duel bot and the
    properties of the schedules it returns.

    Python [str] is [string], a Python [int] used as a length or an index is
    [nat] (every index the function computes is non-negative, see
    [mirror_index]), tuples are pairs, [None]-or-string is [option string].
    Python lists are objects: they live in a [store], variables hold their
    locations, [append] changes the object in place, and the alias
    [players_list = players] of the even branch is an alias in the model
    too.  An exception ([IndexError]) is the failure of the monad. *)

From Stdlib Require Import String Ascii Arith Bool Lia PeanoNat List Permutation.
From Stdlib Require Import DecimalString.
Import ListNotations.
Open Scope string_scope.
Open Scope list_scope.
Open Scope nat_scope.

(** ** The store and the monad of Python computations *)

Definition loc := nat.

Definition pairing : Type := string * string.
Definition round : Type := list pairing.
Definition schedule : Type := (list round * list string)%type.

(** The list objects of the program, by the type of their elements. *)
Inductive obj : Type :=
| Strs (v : list string)     (* a list of [str] *)
| Pairs (v : list pairing)   (* a list of 2-tuples of [str] *)
| Refs (v : list loc).       (* a list of lists, held by reference *)

(** The objects alive, addressed by position. *)
Definition store := list obj.

(** A computation reads and changes the store and may raise. *)
Definition Py (A : Type) : Type := store -> option (A * store).

Definition ret {A : Type} (a : A) : Py A := fun s => Some (a, s).

Definition bind {A B : Type} (m : Py A) (k : A -> Py B) : Py B :=
  fun s => match m s with
           | Some (a, s') => k a s'
           | None => None
           end.

Definition raise {A : Type} : Py A := fun _ => None.

Declare Scope py_scope.
Delimit Scope py_scope with py.
Notation "x <- m ;; k" := (bind m (fun x => k))
  (at level 61, m at next level, right associativity) : py_scope.
Open Scope py_scope.

(** The object at [l]. *)
Definition lookup (l : loc) : Py obj :=
  fun s => match nth_error s l with
           | Some o => Some (o, s)
           | None => None
           end.

(** The object at [l] becomes [o]. *)
Definition assign (l : loc) (o : obj) : Py unit :=
  fun s => Some (tt, firstn l s ++ o :: skipn (S l) s).

(** A list display or a list expression: a new object. *)
Definition alloc (o : obj) : Py loc :=
  fun s => Some (length s, s ++ [o]).

(** The elements of the list of [str] at [l]. *)
Definition strs (l : loc) : Py (list string) :=
  o <- lookup l ;;
  match o with
  | Strs v => ret v
  | _ => raise
  end.

(** [len(l)] *)
Definition len (l : loc) : Py nat :=
  v <- strs l ;; ret (length v).

(** [l[i]] for [i >= 0]: raises when [i] is out of range. *)
Definition getitem (l : loc) (i : nat) : Py string :=
  v <- strs l ;;
  match nth_error v i with
  | Some x => ret x
  | None => raise
  end.

(** [l[k:]]: slicing never raises. *)
Definition getslice_from (l : loc) (k : nat) : Py (list string) :=
  v <- strs l ;; ret (skipn k v).

(** [l.append(x)], for each of the three kinds of list. *)
Definition append_str (l : loc) (x : string) : Py unit :=
  o <- lookup l ;;
  match o with
  | Strs v => assign l (Strs (v ++ [x]))
  | _ => raise
  end.

Definition append_pair (l : loc) (x : pairing) : Py unit :=
  o <- lookup l ;;
  match o with
  | Pairs v => assign l (Pairs (v ++ [x]))
  | _ => raise
  end.

Definition append_ref (l : loc) (x : loc) : Py unit :=
  o <- lookup l ;;
  match o with
  | Refs v => assign l (Refs (v ++ [x]))
  | _ => raise
  end.

(** [for i in range(n): st = body i st], as a fold over [seq 0 n]. *)
Fixpoint for_each {S : Type} (idxs : list nat) (body : nat -> S -> Py S) (st : S) : Py S :=
  match idxs with
  | [] => ret st
  | i :: rest => st' <- body i st ;; for_each rest body st'
  end.

Definition for_range {S : Type} (n : nat) (body : nat -> S -> Py S) (st : S) : Py S :=
  for_each (seq 0 n) body st.

(** ** The scheduler *)

Definition BYE : string := "BYE".

(** [x != "BYE"] *)
Definition not_bye (x : string) : bool := negb (String.eqb x BYE).

(** [bye_player if bye_player else ""]: [None] and the empty string are
    both falsy. *)
Definition bye_entry (bye_player : option string) : string :=
  match bye_player with
  | Some p => if String.eqb p "" then "" else p
  | None => ""
  end.

(** Lines 69-80, the body of the inner loop: [round_pairings] is changed
    in place, [bye_player] is the variable the loop carries. *)
Definition pair_up (players_list : loc) (num_players : nat) (round_pairings : loc)
    (i : nat) (bye_player : option string) : Py (option string) :=
  player1 <- getitem players_list i ;;
  player2 <- getitem players_list (num_players - 1 - i) ;;
  if not_bye player1 && not_bye player2 then
    _ <- append_pair round_pairings (player1, player2) ;;
    ret bye_player
  else if not_bye player1 then
    ret (Some player1)
  else if not_bye player2 then
    ret (Some player2)
  else
    ret bye_player.

(** Line 87: [[players_list[0]] + players_list[2:] + [players_list[1]]],
    bound to [players_list] again: a new object, the old one is untouched. *)
Definition rotate_players (players_list : loc) : Py loc :=
  first <- getitem players_list 0 ;;
  rest <- getslice_from players_list 2 ;;
  second <- getitem players_list 1 ;;
  alloc (Strs ([first] ++ rest ++ [second])).

(** Lines 64-87, the body of the outer loop; [players_list] is the
    variable it carries. *)
Definition play_round (num_players : nat) (rounds byes_per_round : loc)
    (round_num : nat) (players_list : loc) : Py loc :=
  round_pairings <- alloc (Pairs []) ;;
  bye_player <- for_range (num_players / 2)
                  (pair_up players_list num_players round_pairings) None ;;
  _ <- append_ref rounds round_pairings ;;
  _ <- append_str byes_per_round (bye_entry bye_player) ;;
  rotate_players players_list.

(** Lines 36-89.  The result is the pair of the list objects
    [rounds] and [byes_per_round]. *)
Definition generate_round_robin (players : loc) : Py (loc * loc) :=
  n <- len players ;;
  if n <? 2 then
    rounds <- alloc (Refs []) ;;
    byes_per_round <- alloc (Strs []) ;;
    ret (rounds, byes_per_round)
  else
    players_list <-
      (if n mod 2 =? 1 then
         v <- strs players ;; alloc (Strs (v ++ [BYE]))
       else ret players) ;;
    num_players <- len players_list ;;
    rounds <- alloc (Refs []) ;;
    byes_per_round <- alloc (Strs []) ;;
    _ <- for_range (num_players - 1)
           (play_round num_players rounds byes_per_round) players_list ;;
    ret (rounds, byes_per_round).

(** ** What the caller sees *)

Definition read_strs (s : store) (l : loc) : option (list string) :=
  match nth_error s l with
  | Some (Strs v) => Some v
  | _ => None
  end.

Definition read_pairs (s : store) (l : loc) : option round :=
  match nth_error s l with
  | Some (Pairs v) => Some v
  | _ => None
  end.

Fixpoint read_all (s : store) (ls : list loc) : option (list round) :=
  match ls with
  | [] => Some []
  | l :: ls' =>
      match read_pairs s l, read_all s ls' with
      | Some r, Some rs => Some (r :: rs)
      | _, _ => None
      end
  end.

Definition read_rounds (s : store) (l : loc) : option (list round) :=
  match nth_error s l with
  | Some (Refs ls) => read_all s ls
  | _ => None
  end.

(** The value of a result [(rounds, byes_per_round)] in the store it was
    returned in. *)
Definition read_schedule (s : store) (r : loc * loc) : option schedule :=
  match read_rounds s (fst r), read_strs s (snd r) with
  | Some rounds, Some byes => Some (rounds, byes)
  | _, _ => None
  end.

(** The function called on the list object at [p] of the store [s]: the
    schedule returned, or [None] for an exception. *)
Definition run (s : store) (p : loc) : option schedule :=
  match generate_round_robin p s with
  | Some (r, s') => read_schedule s' r
  | None => None
  end.

(** A call on a list held by the caller, in a store with nothing else. *)
Definition call (players : list string) : option schedule :=
  run [Strs players] 0.

(** Line 124 of [format_round_robin_output]: an entry of [byes_per_round]
    names a bye player when it is truthy. *)
Definition has_bye (entry : string) : bool := negb (String.eqb entry "").

(** ** The schedule as a function of the working list

    What the loops compute, without the store: used to reason about the
    result once [generate_round_robin_run] has related the two. *)

(** The list the loops start from (lines 53-56). *)
Definition working_list (players : list string) : list string :=
  if length players mod 2 =? 1 then players ++ [BYE] else players.

(** The value of the list built at line 87. *)
Definition rotate (l : list string) : list string :=
  match l with
  | first :: second :: rest => [first] ++ rest ++ [second]
  | _ => l
  end.

(** The pairs of players the inner loop reads, in the order it reads them. *)
Definition index_pairs (wl : list string) : list pairing :=
  map (fun i => (nth i wl "", nth (length wl - 1 - i) wl ""))
      (seq 0 (length wl / 2)).

(** A pair the loop keeps as a pairing. *)
Definition real_pair (pr : pairing) : bool :=
  not_bye (fst pr) && not_bye (snd pr).

(** The bye candidate the loop takes from a pair, if any. *)
Definition bye_of_pair (pr : pairing) : option string :=
  if real_pair pr then None
  else if not_bye (fst pr) then Some (fst pr)
  else if not_bye (snd pr) then Some (snd pr)
  else None.

(** The bye the inner loop ends with: the candidate of the last pair that
    has one. *)
Definition last_bye (ps : list pairing) (b : option string) : option string :=
  fold_left (fun b pr => match bye_of_pair pr with
                         | Some x => Some x
                         | None => b
                         end) ps b.

(** The pairings and the entry of round [k]. *)
Definition round_of (wl : list string) (k : nat) : round :=
  filter real_pair (index_pairs (Nat.iter k rotate wl)).

Definition bye_of (wl : list string) (k : nat) : string :=
  bye_entry (last_bye (index_pairs (Nat.iter k rotate wl)) None).

Definition rounds_of (wl : list string) : list round :=
  map (round_of wl) (seq 0 (length wl - 1)).

Definition byes_of (wl : list string) : list string :=
  map (bye_of wl) (seq 0 (length wl - 1)).

(** The objects the outer loop leaves behind when it starts in a store of
    [n] objects: per round, the list of its pairings and the rotated
    working list. *)
Definition round_objects (wl : list string) (rounds : nat) : list obj :=
  flat_map (fun k => [Pairs (round_of wl k); Strs (Nat.iter (S k) rotate wl)])
           (seq 0 rounds).

(** Where the lists of pairings are: every second location from [n] on. *)
Definition round_locs (n rounds : nat) : list loc :=
  map (fun k => n + 2 * k) (seq 0 rounds).

(** The store a call leaves, from a store [s] that holds [players]. *)
Definition final_store (s : store) (players : list string) : store :=
  if length players <? 2 then s ++ [Refs []; Strs []]
  else
    let wl := working_list players in
    let base := s ++ (if length players mod 2 =? 1 then [Strs wl] else []) in
    base ++ [Refs (round_locs (length base + 2) (length wl - 1));
             Strs (byes_of wl)]
         ++ round_objects wl (length wl - 1).

(** Where the call creates [rounds]; [byes_per_round] comes next. *)
Definition rounds_loc (s : store) (players : list string) : loc :=
  if length players <? 2 then length s
  else length s + (if length players mod 2 =? 1 then 1 else 0).

Definition result_locs (s : store) (players : list string) : loc * loc :=
  (rounds_loc s players, S (rounds_loc s players)).

(** The schedule a call returns. *)
Definition schedule_of (players : list string) : schedule :=
  if length players <? 2 then ([], [])
  else (rounds_of (working_list players), byes_of (working_list players)).

(** Where the element at position [j] of the working list of round [k]
    was in the initial working list of length [m + 1]. *)
Definition origin (m k j : nat) : nat :=
  if j =? 0 then 0
  else if j - 1 + k <? m then j + k
  else j + k - m.

(** ** The store during the loop *)

(** The working list at [pl] is out of the way of the appends of the
    loop: it is neither [rounds] nor [byes_per_round], which follow
    [base], and stays where it is when objects are added. *)
Definition settled (base tail : store) (pl : loc) (wl : list string) : Prop :=
  forall (rs : list loc) (bs : list string) (ext : store),
    nth_error (base ++ Refs rs :: Strs bs :: tail ++ ext) pl = Some (Strs wl).

(** ** Counting pairs, meetings and appearances *)

(** The players of a list of pairs, with multiplicity. *)
Definition members (ps : list pairing) : list string :=
  map fst ps ++ map snd ps.

(** The position pairs [(p, q)] with [p < q < n]. *)
Fixpoint position_pairs (n : nat) : list (nat * nat) :=
  match n with
  | 0 => []
  | S q => position_pairs q ++ map (fun p => (p, q)) (seq 0 q)
  end.

(** A position pair with its smaller component first. *)
Definition ordered (sl : nat * nat) : nat * nat :=
  if fst sl <? snd sl then sl else (snd sl, fst sl).

(** The pairs of initial positions the loops bring together over the
    [2h + 1] rounds of a working list of length [2h + 2], in order. *)
Definition slots (h : nat) : list (nat * nat) :=
  flat_map (fun k => map (fun i => (origin (2 * h + 1) k i,
                                    origin (2 * h + 1) k (2 * h + 1 - i)))
                         (seq 0 (S h)))
           (seq 0 (2 * h + 1)).

(** The players that started at the two positions of a slot. *)
Definition players_at (wl : list string) (sl : nat * nat) : pairing :=
  (nth (fst sl) wl "", nth (snd sl) wl "").

(** [{a, b}] is the pairing [pr], in either order. *)
Definition same_pairing (a b : string) (pr : pairing) : bool :=
  (String.eqb a (fst pr) && String.eqb b (snd pr))
  || (String.eqb a (snd pr) && String.eqb b (fst pr)).

(** How many pairings of the schedule are [{a, b}]. *)
Definition meetings (a b : string) (rounds : list round) : nat :=
  length (filter (same_pairing a b) (concat rounds)).

(** How often [p] is a member of a pair of [ps]. *)
Definition occurrences (p : string) (ps : list pairing) : nat :=
  count_occ string_dec (members ps) p.

(** [1] when the entry of [byes_per_round] names [p] as the bye player. *)
Definition bye_count (p : string) (entry : string) : nat :=
  if has_bye entry && String.eqb entry p then 1 else 0.

(** How often [p] appears in a round: as a member of its pairings and as
    its bye player. *)
Definition appearances (p : string) (r : round) (entry : string) : nat :=
  occurrences p r + bye_count p entry.

(** ** Notions used in the statements *)

(** Completeness of a schedule: any two distinct participants meet in
    exactly one pairing, and there are [N (N - 1) / 2] pairings in all. *)
Definition complete (players : list string) : Prop :=
  exists rounds byes,
    call players = Some (rounds, byes) /\
    (forall a b, In a players -> In b players -> a <> b ->
                 meetings a b rounds = 1) /\
    length (concat rounds) = length players * (length players - 1) / 2.

(** Round validity: in every round every participant appears exactly once,
    in one pairing or as the bye player. *)
Definition rounds_valid (players : list string) : Prop :=
  exists rounds byes,
    call players = Some (rounds, byes) /\
    forall k p, k < length rounds -> In p players ->
                appearances p (nth k rounds []) (nth k byes "") = 1.

(** Bye parity: no bye when [N] is even; when [N] is odd a bye player in
    every round, and every participant is the bye player of some round. *)
Definition bye_parity (players : list string) : Prop :=
  exists rounds byes,
    call players = Some (rounds, byes) /\
    length byes = length rounds /\
    (length players mod 2 = 0 -> forall k, k < length rounds -> nth k byes "" = "") /\
    (length players mod 2 = 1 ->
     (forall k, k < length rounds -> has_bye (nth k byes "") = true) /\
     (forall p, In p players ->
                exists k, k < length rounds /\ nth k byes "" = p
                          /\ has_bye (nth k byes "") = true)).

(** [[fixed] + old[2:] + [old[1]]] *)
Definition circle_rotate (old : list string) : list string :=
  [nth 0 old ""] ++ skipn 2 old ++ [nth 1 old ""].

(** Position [i] against position [M - 1 - i], for [i] from [0] to
    [M/2 - 1], keeping the pairs without a placeholder. *)
Definition circle_round (wl : list string) : round :=
  let M := length wl in
  filter (fun pr => negb (String.eqb (fst pr) BYE) && negb (String.eqb (snd pr) BYE))
         (map (fun i => (nth i wl "", nth (M - 1 - i) wl "")) (seq 0 (M / 2))).

(** The working list at the start of iteration [k]. *)
Fixpoint circle_list (k : nat) (wl : list string) : list string :=
  match k with
  | 0 => wl
  | S k' => circle_rotate (circle_list k' wl)
  end.

(** The player the inner loop reads opposite a "BYE" in a working list. *)
Definition paired_with_bye (wl : list string) (opp : string) : Prop :=
  In (BYE, opp) (index_pairs wl) \/ In (opp, BYE) (index_pairs wl).

(** "BYE" is treated as the placeholder: it is in no pairing, and in every
    round the player opposite it is the entry of [byes_per_round]. *)
Definition placeholder_treatment (players : list string) : Prop :=
  exists rounds byes,
    call players = Some (rounds, byes) /\
    (forall r pr, In r rounds -> In pr r -> fst pr <> BYE /\ snd pr <> BYE) /\
    (forall k, k < length rounds ->
       exists opp,
         paired_with_bye (Nat.iter k rotate (working_list players)) opp /\
         nth k byes "" = opp).

(** ** Renaming the participants *)

(** A pairing and a schedule with every name sent through [f]. *)
Definition rename_pairing (f : string -> string) (pr : pairing) : pairing :=
  (f (fst pr), f (snd pr)).

Definition rename_schedule (f : string -> string) (sch : schedule) : schedule :=
  (map (map (rename_pairing f)) (fst sch), map f (snd sch)).

(** ** Formatting a schedule ([format_round_robin_output], lines 92-129)

    Text is built by concatenation only, so a Python string is modelled by
    its UTF-8 bytes. *)

(** [f"{n}"] for an [int] that is not negative. *)
Definition str_of_int (n : nat) : string :=
  NilEmpty.string_of_uint (Nat.to_uint n).

(** A string in a condition: the empty one is falsy. *)
Definition truthy (s : string) : bool := negb (String.eqb s "").

(** Line 105. *)
Definition NEED_TWO_PLAYERS : string :=
  "❌ Need at least 2 players to generate pairings.".

(** Line 107. *)
Definition TITLE : string :=
  "🎯 **Round Robin Tournament**

".

(** Line 113. *)
Definition ODD_NOTE : string :=
  "ℹ️ *Note: Odd number of players - one player will have a bye each round*

".

(** Lines 107-113: what precedes the rounds. *)
Definition format_header (players : list string) (rounds : list round) : string :=
  let output := TITLE in
  let output := (output ++ "👥 **Players:** " ++ String.concat ", " players ++ "
")%string in
  let output := (output ++ "📊 **Total Players:** " ++ str_of_int (length players) ++ "
")%string in
  let output := (output ++ "🔄 **Total Rounds:** " ++ str_of_int (length rounds) ++ "

")%string in
  if length players mod 2 =? 1 then (output ++ ODD_NOTE)%string else output.

(** Lines 120-121: one line per pairing, appended to [output]. *)
Definition format_pairings (output : string) (round_pairings : round) : string :=
  fold_left (fun (output : string) (pr : pairing) =>
               let '(player1, player2) := pr in
               (output ++ "  ⚔️ " ++ player1 ++ " vs " ++ player2 ++ "
")%string)
            round_pairings output.

(** Lines 117-127: the body of the loop over [enumerate(rounds, 1)].  The
    index [round_num - 1] is read only when the guard before [and] holds;
    out of range it raises. *)
Definition format_round (byes_per_round : list string) (output : string)
    (item : nat * round) : option string :=
  let '(round_num, round_pairings) := item in
  let output := (output ++ "**Round " ++ str_of_int round_num ++ ":**
")%string in
  let output := format_pairings output round_pairings in
  match
    (if round_num <=? length byes_per_round then
       match nth_error byes_per_round (round_num - 1) with
       | Some entry =>
           Some (if truthy entry
                 then (output ++ "  😴 " ++ entry ++ " (bye)
")%string
                 else output)
       | None => None
       end
     else Some output)
  with
  | Some output => Some (output ++ "
")%string
  | None => None
  end.

(** A loop whose body may raise. *)
Fixpoint fold_raising {A B : Type} (body : A -> B -> option A) (l : list B) (a : A)
  : option A :=
  match l with
  | [] => Some a
  | x :: l' =>
      match body a x with
      | Some a' => fold_raising body l' a'
      | None => None
      end
  end.

(** [enumerate(l, 1)] *)
Definition enumerate_from_1 {A : Type} (l : list A) : list (nat * A) :=
  combine (seq 1 (length l)) l.

(** Lines 92-129; [None] stands for an exception. *)
Definition format_round_robin_output (players : list string) (rounds : list round)
    (byes_per_round : list string) : option string :=
  match rounds with
  | [] => Some NEED_TWO_PLAYERS
  | _ =>
      fold_raising (format_round byes_per_round) (enumerate_from_1 rounds)
                   (format_header players rounds)
  end.

(** The text one round adds to the output. *)
Definition round_text (byes_per_round : list string) (item : nat * round) : string :=
  match format_round byes_per_round "" item with
  | Some added => added
  | None => ""
  end.

(** ** Handling a message ([start] and [handle_message], lines 132-210) *)

(** A call of [reply_text]: the text and the [parse_mode] given, if any.
    [reply_markup] is [START_KEYBOARD] in every call. *)
Record reply : Type := mk_reply { text : string; parse_mode : option string }.

(** How a coroutine ends. *)
Inductive outcome : Type := Returned | Raised.

(** Line 134. *)
Definition USAGE_TEXT : string :=
  "
🤖 **Round Robin Duel Bot**

Welcome! This bot generates round robin tournament pairings.

**Usage:**
Send me a comma-separated list of players, and I'll generate the tournament schedule.

**Example:**
```
Alice, Bob, Charlie, David
```

**Features:**
• Each player plays every opponent exactly once
• If odd number of players, one player gets a bye each round
• All rounds are displayed with pairings

Send me your player list to get started! 🎯
".

(** Line 166. *)
Definition START_BUTTON : string :=
  "🔄 Start New Tournament".

(** Line 175. *)
Definition TOO_FEW_PLAYERS : string :=
  "❌ Please provide at least 2 players separated by commas.

Example: Alice, Bob, Charlie".

(** Line 191. *)
Definition TOO_FEW_UNIQUE : string :=
  "❌ Please provide at least 2 unique players.".

(** Line 208. *)
Definition FAILED : string :=
  "❌ An error occurred while generating the tournament schedule. Please try again.".

(** [s.split(sep)] for a separator of one character: the pieces between
    the separators, [[""]] for the empty string. *)
Fixpoint split (sep : ascii) (s : string) : list string :=
  match s with
  | EmptyString => [EmptyString]
  | String ch rest =>
      if Ascii.eqb ch sep then EmptyString :: split sep rest
      else match split sep rest with
           | piece :: pieces => String ch piece :: pieces
           | [] => [String ch EmptyString]
           end
  end.

Section Handler.

(** [str.strip()] and [str.lower()], which belong to Python. *)
Variable strip : string -> string.
Variable lower : string -> string.

(** Whether [reply_text] returns for a reply, rather than raises: the
    service may refuse a message, for instance one it cannot parse as
    Markdown. *)
Variable delivers : reply -> bool.

(** When [reply_text] raises for a reply, whether what it raises is an
    [Exception], which [except Exception] of line 205 catches, rather than
    another [BaseException], such as the cancellation of the coroutine,
    which it lets through. *)
Variable caught : reply -> bool.

(** [await update.message.reply_text(...)]: the replies delivered and how
    the call ended. *)
Definition reply_text (r : reply) : list reply * outcome :=
  if delivers r then ([r], Returned) else ([], Raised).

(** Lines 132-158. *)
Definition start : list reply * outcome :=
  reply_text (mk_reply USAGE_TEXT (Some "Markdown")).

(** Line 171: [[p.strip() for p in message_text.split(',') if p.strip()]] *)
Definition parse_players (message_text : string) : list string :=
  map strip (filter (fun p => truthy (strip p)) (split ","%char message_text)).

(** Lines 184-187, the body of the loop: [seen] is a set, of which the
    loop uses membership and [add]. *)
Definition remember (st : list string * list string) (player : string)
  : list string * list string :=
  let '(seen, unique_players) := st in
  if negb (existsb (String.eqb (lower player)) seen) then
    (lower player :: seen, unique_players ++ [player])
  else st.

(** Lines 182-187. *)
Definition unique_players_of (players : list string) : list string :=
  snd (fold_left remember players ([], [])).

(** Lines 198-199, inside [try]: the two calls, on the list object
    [unique_players], which [format_round_robin_output] reads after
    [generate_round_robin] has run. *)
Definition tournament_text (unique_players : list string) : option string :=
  match generate_round_robin 0 [Strs unique_players] with
  | Some (r, s') =>
      match read_strs s' 0, read_schedule s' r with
      | Some players, Some (rounds, byes_per_round) =>
          format_round_robin_output players rounds byes_per_round
      | _, _ => None
      end
  | None => None
  end.

(** Lines 161-210.  What the two calls of the [try] block raise is an
    [Exception] (an [IndexError]) and is answered by the reply of line 207;
    what [reply_text] raises there is answered by it when line 205 catches
    it, and leaves the handler otherwise.  The log line is left out. *)
Definition handle_message (received : string) : list reply * outcome :=
  let message_text := strip received in
  if String.eqb message_text START_BUTTON || String.eqb message_text "/start" then
    start
  else
    let players := parse_players message_text in
    if length players <? 2 then
      reply_text (mk_reply TOO_FEW_PLAYERS None)
    else
      let unique_players := unique_players_of players in
      if length unique_players <? 2 then
        reply_text (mk_reply TOO_FEW_UNIQUE None)
      else
        match tournament_text unique_players with
        | Some output =>
            if delivers (mk_reply output (Some "Markdown")) then
              ([mk_reply output (Some "Markdown")], Returned)
            else if caught (mk_reply output (Some "Markdown")) then
              reply_text (mk_reply FAILED None)
            else ([], Raised)
        | None => reply_text (mk_reply FAILED None)
        end.

End Handler.

(** ** Proof steps that recur *)

(** A display of distinct names has no duplicates; a name is not in a
    display of other names. *)
Ltac distinct_names :=
  repeat constructor; cbn; intuition discriminate.

(** Past the guard of line 49: the schedule of a call on two players or
    more, [call_eq] tells which. *)
Ltac past_guard lemma :=
  rewrite lemma; unfold schedule_of;
  match goal with
  | |- context [?n <? 2] => destruct (Nat.ltb_spec n 2) as [|_]; [lia|]
  end.

(** * Properties *)

Example call_four :
  call ["Alice"; "Bob"; "Charlie"; "David"] =
  Some ([[("Alice", "David"); ("Bob", "Charlie")];
         [("Alice", "Bob"); ("Charlie", "David")];
         [("Alice", "Charlie"); ("David", "Bob")]],
        [""; ""; ""]).
Proof. reflexivity. Qed.

Example call_three :
  call ["Alice"; "Bob"; "Charlie"] =
  Some ([[("Bob", "Charlie")]; [("Alice", "Bob")]; [("Alice", "Charlie")]],
        ["Alice"; "Charlie"; "Bob"]).
Proof. reflexivity. Qed.

Example call_three_store :
  option_map snd (generate_round_robin 0 [Strs ["Alice"; "Bob"; "Charlie"]])
  = Some (final_store [Strs ["Alice"; "Bob"; "Charlie"]] ["Alice"; "Bob"; "Charlie"]).
Proof. reflexivity. Qed.

Example call_two_store :
  option_map snd (generate_round_robin 1 [Refs []; Strs ["Alice"; "Bob"]])
  = Some (final_store [Refs []; Strs ["Alice"; "Bob"]] ["Alice"; "Bob"]).
Proof. reflexivity. Qed.

Section Monad.
Context {A B : Type}.

Lemma bind_Some (m : Py A) (k : A -> Py B) (s s' : store) (a : A) :
  m s = Some (a, s') -> bind m k s = k a s'.
Proof. unfold bind. now intros ->. Qed.

End Monad.

(** ** The primitives *)

Lemma lookup_run (s : store) (l : loc) (o : obj) :
  nth_error s l = Some o -> lookup l s = Some (o, s).
Proof. unfold lookup. now intros ->. Qed.

Lemma strs_run (s : store) (l : loc) (v : list string) :
  nth_error s l = Some (Strs v) -> strs l s = Some (v, s).
Proof.
  intros H. unfold strs. now rewrite (bind_Some _ _ _ _ _ (lookup_run _ _ _ H)).
Qed.

Lemma len_run (s : store) (l : loc) (v : list string) :
  nth_error s l = Some (Strs v) -> len l s = Some (length v, s).
Proof.
  intros H. unfold len. now rewrite (bind_Some _ _ _ _ _ (strs_run _ _ _ H)).
Qed.

Lemma getitem_run (s : store) (l : loc) (v : list string) (i : nat) :
  nth_error s l = Some (Strs v) -> i < length v ->
  getitem l i s = Some (nth i v "", s).
Proof.
  intros H Hi. unfold getitem.
  rewrite (bind_Some _ _ _ _ _ (strs_run _ _ _ H)).
  now rewrite (nth_error_nth' v "" Hi).
Qed.

Lemma getslice_from_run (s : store) (l : loc) (v : list string) (k : nat) :
  nth_error s l = Some (Strs v) -> getslice_from l k s = Some (skipn k v, s).
Proof.
  intros H. unfold getslice_from.
  now rewrite (bind_Some _ _ _ _ _ (strs_run _ _ _ H)).
Qed.

Lemma nth_error_middle (s1 s2 : store) (o : obj) :
  nth_error (s1 ++ o :: s2) (length s1) = Some o.
Proof. rewrite nth_error_app2 by lia. now rewrite Nat.sub_diag. Qed.

Lemma nth_error_second (s1 s2 : store) (o o' : obj) :
  nth_error (s1 ++ o :: o' :: s2) (S (length s1)) = Some o'.
Proof.
  rewrite nth_error_app2 by lia.
  replace (S (length s1) - length s1) with 1 by lia. reflexivity.
Qed.

Lemma assign_run (s1 s2 : store) (o o' : obj) :
  assign (length s1) o' (s1 ++ o :: s2) = Some (tt, s1 ++ o' :: s2).
Proof.
  unfold assign. do 2 f_equal.
  rewrite firstn_app, Nat.sub_diag, firstn_all. cbn [firstn]. rewrite app_nil_r.
  f_equal. f_equal.
  rewrite skipn_app, skipn_all2 by lia.
  replace (S (length s1) - length s1) with 1 by lia. reflexivity.
Qed.

Lemma append_str_run (s1 s2 : store) (v : list string) (x : string) :
  append_str (length s1) x (s1 ++ Strs v :: s2)
  = Some (tt, s1 ++ Strs (v ++ [x]) :: s2).
Proof.
  unfold append_str.
  rewrite (bind_Some _ _ _ _ _ (lookup_run _ _ _ (nth_error_middle _ _ _))).
  apply assign_run.
Qed.

Lemma append_pair_run (s1 s2 : store) (v : list pairing) (x : pairing) :
  append_pair (length s1) x (s1 ++ Pairs v :: s2)
  = Some (tt, s1 ++ Pairs (v ++ [x]) :: s2).
Proof.
  unfold append_pair.
  rewrite (bind_Some _ _ _ _ _ (lookup_run _ _ _ (nth_error_middle _ _ _))).
  apply assign_run.
Qed.

Lemma append_ref_run (s1 s2 : store) (v : list loc) (x : loc) :
  append_ref (length s1) x (s1 ++ Refs v :: s2)
  = Some (tt, s1 ++ Refs (v ++ [x]) :: s2).
Proof.
  unfold append_ref.
  rewrite (bind_Some _ _ _ _ _ (lookup_run _ _ _ (nth_error_middle _ _ _))).
  apply assign_run.
Qed.

Lemma append_str_second (s1 s2 : store) (o : obj) (v : list string) (x : string) :
  append_str (S (length s1)) x (s1 ++ o :: Strs v :: s2)
  = Some (tt, s1 ++ o :: Strs (v ++ [x]) :: s2).
Proof.
  pose proof (append_str_run (s1 ++ [o]) s2 v x) as H.
  rewrite <- !app_assoc, length_app in H. cbn [app length] in H.
  now rewrite Nat.add_1_r in H.
Qed.

(** Every index of the inner loop is in range, and the subtraction in
    [num_players - 1 - i] never goes below zero. *)
Lemma mirror_index (M i : nat) :
  i < M / 2 -> i < M /\ M - 1 - i < M /\ i + (M - 1 - i) = M - 1.
Proof.
  intros Hi.
  assert (2 * (M / 2) <= M) by (apply Nat.Div0.mul_div_le).
  lia.
Qed.

(** ** Running the loops *)

Lemma nth_error_front (front ext : store) (l : loc) (o : obj) :
  nth_error front l = Some o -> nth_error (front ++ ext) l = Some o.
Proof.
  intros H. rewrite nth_error_app1; [assumption|].
  apply nth_error_Some. congruence.
Qed.

(** One pass of the body of the inner loop, with the list of the round's
    pairings last in the store. *)
Lemma pair_up_run (front : store) (pl : loc) (wl : list string) (i : nat)
    (acc : round) (b : option string) :
  nth_error front pl = Some (Strs wl) -> i < length wl / 2 ->
  pair_up pl (length wl) (length front) i b (front ++ [Pairs acc])
  = Some (match bye_of_pair (nth i wl "", nth (length wl - 1 - i) wl "") with
          | Some x => Some x
          | None => b
          end,
          front ++ [Pairs (acc ++ filter real_pair
                             [(nth i wl "", nth (length wl - 1 - i) wl "")])]).
Proof.
  intros Hpl Hi. destruct (mirror_index _ _ Hi) as (H1 & H2 & _).
  pose proof (nth_error_front front [Pairs acc] pl _ Hpl) as Hread.
  unfold pair_up.
  erewrite bind_Some by (apply getitem_run; eassumption).
  erewrite bind_Some by (apply getitem_run; eassumption).
  unfold bye_of_pair, real_pair. cbn [fst snd filter].
  destruct (not_bye (nth i wl "")), (not_bye (nth (length wl - 1 - i) wl ""));
    cbn [andb]; rewrite ?app_nil_r; try reflexivity.
  erewrite bind_Some by apply append_pair_run. reflexivity.
Qed.

(** The inner loop: the pairs without a placeholder are appended in
    order, and the last bye candidate is kept. *)
Lemma pair_loop_run (front : store) (pl : loc) (wl : list string) (idxs : list nat) :
  nth_error front pl = Some (Strs wl) ->
  Forall (fun i => i < length wl / 2) idxs ->
  forall (acc : round) (b : option string),
  for_each idxs (pair_up pl (length wl) (length front)) b (front ++ [Pairs acc])
  = Some (last_bye (map (fun i => (nth i wl "", nth (length wl - 1 - i) wl "")) idxs) b,
          front ++ [Pairs (acc ++ filter real_pair
              (map (fun i => (nth i wl "", nth (length wl - 1 - i) wl "")) idxs))]).
Proof.
  intros Hpl Hidx.
  induction Hidx as [|i idxs Hi _ IH]; intros acc b.
  - cbn. now rewrite app_nil_r.
  - cbn [for_each].
    erewrite bind_Some by (apply pair_up_run; assumption).
    rewrite IH. unfold last_bye. cbn [map fold_left].
    assert (E : forall (pr : pairing) (ps : list pairing),
               filter real_pair [pr] ++ filter real_pair ps
               = filter real_pair (pr :: ps))
      by (intros pr ps; cbn [filter]; now destruct (real_pair pr)).
    now rewrite <- app_assoc, E.
Qed.

Lemma rotate_players_run (s : store) (pl : loc) (wl : list string) :
  nth_error s pl = Some (Strs wl) -> 2 <= length wl ->
  rotate_players pl s = Some (length s, s ++ [Strs (rotate wl)]).
Proof.
  intros Hpl Hlen. unfold rotate_players.
  erewrite bind_Some by (apply getitem_run; [eassumption|lia]).
  erewrite bind_Some by (apply getslice_from_run; eassumption).
  erewrite bind_Some by (apply getitem_run; [eassumption|lia]).
  destruct wl as [|a [|b t]]; cbn in Hlen; try lia.
  reflexivity.
Qed.

Lemma rotate_length (l : list string) : length (rotate l) = length l.
Proof.
  destruct l as [|a [|b t]]; try reflexivity.
  cbn. rewrite length_app. cbn. lia.
Qed.

Lemma iter_rotate_length (k : nat) (l : list string) :
  length (Nat.iter k rotate l) = length l.
Proof.
  induction k as [|k IH]; [reflexivity|].
  cbn. now rewrite rotate_length.
Qed.

Lemma iter_rotate_succ (k : nat) (l : list string) :
  Nat.iter (S k) rotate l = Nat.iter k rotate (rotate l).
Proof. apply Nat.iter_succ_r. Qed.

(** One round: a list of pairings is created and filled, [rounds] and
    [byes_per_round] grow by one, a rotated working list is created. *)
Lemma play_round_run (base tail : store) (rs : list loc) (bs : list string)
    (pl : loc) (wl : list string) (k : nat) :
  settled base tail pl wl -> 2 <= length wl ->
  let st := base ++ Refs rs :: Strs bs :: tail in
  play_round (length wl) (length base) (S (length base)) k pl st
  = Some (S (length st),
          base ++ Refs (rs ++ [length st])
               :: Strs (bs ++ [bye_of wl 0])
               :: tail ++ [Pairs (round_of wl 0); Strs (rotate wl)]).
Proof.
  intros Hpl Hlen st. unfold play_round.
  assert (Hst : nth_error st pl = Some (Strs wl)).
  { specialize (Hpl rs bs []). now rewrite app_nil_r in Hpl. }
  erewrite bind_Some by reflexivity.
  erewrite bind_Some.
  2:{ unfold for_range. apply (pair_loop_run st pl wl); [assumption|].
      apply Forall_forall. intros i Hi. apply in_seq in Hi. lia. }
  fold (index_pairs wl). cbn [app].
  change (filter real_pair (index_pairs wl)) with (round_of wl 0).
  change (bye_entry (last_bye (index_pairs wl) None)) with (bye_of wl 0).
  replace (st ++ [Pairs (round_of wl 0)])
    with (base ++ Refs rs :: Strs bs :: tail ++ [Pairs (round_of wl 0)])
    by (unfold st; now rewrite <- app_assoc).
  erewrite bind_Some by apply append_ref_run.
  erewrite bind_Some by apply append_str_second.
  erewrite rotate_players_run; [|apply Hpl|assumption].
  f_equal. f_equal.
  - unfold st. rewrite !length_app. cbn [length]. rewrite !length_app. cbn [length]. lia.
  - rewrite <- app_assoc. cbn [app]. now rewrite <- app_assoc.
Qed.

Lemma round_of_succ (wl : list string) (k : nat) :
  round_of (rotate wl) k = round_of wl (S k).
Proof. unfold round_of. now rewrite iter_rotate_succ. Qed.

Lemma bye_of_succ (wl : list string) (k : nat) :
  bye_of (rotate wl) k = bye_of wl (S k).
Proof. unfold bye_of. now rewrite iter_rotate_succ. Qed.

Lemma round_objects_succ (wl : list string) (n : nat) :
  round_objects wl (S n)
  = [Pairs (round_of wl 0); Strs (rotate wl)] ++ round_objects (rotate wl) n.
Proof.
  unfold round_objects. cbn [seq flat_map]. f_equal.
  rewrite <- seq_shift, !flat_map_concat_map, map_map. f_equal.
  apply map_ext. intros k.
  now rewrite round_of_succ, <- (iter_rotate_succ (S k)).
Qed.

Lemma round_locs_succ (n0 n : nat) :
  round_locs n0 (S n) = n0 :: round_locs (S (S n0)) n.
Proof.
  unfold round_locs. cbn [seq map]. f_equal; [lia|].
  rewrite <- seq_shift, map_map. apply map_ext. intros k. lia.
Qed.

(** The outer loop, from any state on its way. *)
Lemma rounds_loop_run (base : store) (idxs : list nat) :
  forall (tail : store) (rs : list loc) (bs : list string)
         (pl : loc) (wl : list string),
  settled base tail pl wl -> 2 <= length wl ->
  exists pl',
    for_each idxs (play_round (length wl) (length base) (S (length base))) pl
             (base ++ Refs rs :: Strs bs :: tail)
    = Some (pl',
            base ++ Refs (rs ++ round_locs (length base + 2 + length tail)
                                           (length idxs))
                 :: Strs (bs ++ map (bye_of wl) (seq 0 (length idxs)))
                 :: tail ++ round_objects wl (length idxs)).
Proof.
  induction idxs as [|i idxs IH]; intros tail rs bs pl wl Hpl Hlen.
  - exists pl. cbn. now rewrite !app_nil_r.
  - cbn [for_each].
    erewrite bind_Some by (apply play_round_run; assumption).
    set (st := base ++ Refs rs :: Strs bs :: tail).
    assert (Hst : length st = length base + 2 + length tail)
      by (unfold st; rewrite length_app; cbn [length]; lia).
    destruct (IH (tail ++ [Pairs (round_of wl 0); Strs (rotate wl)])
                (rs ++ [length st]) (bs ++ [bye_of wl 0])
                (S (length st)) (rotate wl)) as [pl' Hrun].
    + intros rs' bs' ext.
      replace (base ++ Refs rs' :: Strs bs'
                 :: (tail ++ [Pairs (round_of wl 0); Strs (rotate wl)]) ++ ext)
        with ((base ++ Refs rs' :: Strs bs' :: tail ++ [Pairs (round_of wl 0)])
                ++ Strs (rotate wl) :: ext)
        by (repeat (rewrite <- app_assoc; cbn [app]); reflexivity).
      replace (S (length st))
        with (length (base ++ Refs rs' :: Strs bs' :: tail ++ [Pairs (round_of wl 0)]))
        by (rewrite Hst, !length_app; cbn [length]; rewrite length_app; cbn [length]; lia).
      apply nth_error_middle.
    + now rewrite rotate_length.
    + exists pl'. rewrite rotate_length in Hrun.
      etransitivity; [exact Hrun|].
      cbn [length]. rewrite round_objects_succ, round_locs_succ.
      rewrite <- !app_assoc. cbn [app seq map].
      rewrite <- seq_shift, map_map.
      rewrite (map_ext _ _ (bye_of_succ wl)).
      rewrite length_app, Hst. cbn [length].
      replace (length base + 2 + (length tail + 2))
        with (S (S (length base + 2 + length tail))) by lia.
      reflexivity.
Qed.

(** ** The whole call *)

Lemma working_list_length (players : list string) :
  length (working_list players)
  = if length players mod 2 =? 1 then S (length players) else length players.
Proof.
  unfold working_list. destruct (_ =? 1); [|reflexivity].
  rewrite length_app. cbn. lia.
Qed.

Lemma working_list_even (players : list string) :
  exists h, length (working_list players) = 2 * h.
Proof.
  rewrite working_list_length.
  pose proof (Nat.div_mod_eq (length players) 2) as E.
  pose proof (Nat.mod_upper_bound (length players) 2 ltac:(lia)) as B.
  destruct (Nat.eqb_spec (length players mod 2) 1) as [H1|H1].
  - exists (S (length players / 2)). lia.
  - exists (length players / 2). lia.
Qed.

(** The function, from any store that holds the argument: the two result
    lists are created right after the working list, and the store ends as
    [final_store]. *)
Lemma generate_round_robin_run (s : store) (p : loc) (players : list string) :
  nth_error s p = Some (Strs players) ->
  generate_round_robin p s
  = Some (result_locs s players, final_store s players).
Proof.
  intros Hp. unfold generate_round_robin, result_locs, final_store, rounds_loc.
  erewrite bind_Some by (apply len_run; eassumption).
  destruct (Nat.ltb_spec (length players) 2) as [Hlt|Hge].
  { cbn. rewrite length_app, <- app_assoc. cbn. now rewrite Nat.add_1_r. }
  set (wl := working_list players).
  set (base := s ++ (if length players mod 2 =? 1 then [Strs wl] else [])).
  assert (Hwl : 2 <= length wl).
  { subst wl. rewrite working_list_length. destruct (_ =? 1); lia. }
  assert (Hstep : exists pl,
             (if length players mod 2 =? 1
              then v <- strs p ;; alloc (Strs (v ++ [BYE])) else ret p) s
             = Some (pl, base)
             /\ nth_error base pl = Some (Strs wl)).
  { subst base wl. unfold working_list.
    destruct (length players mod 2 =? 1).
    - exists (length s).
      erewrite bind_Some by (apply strs_run; eassumption).
      split; [reflexivity|]. apply nth_error_middle.
    - exists p. rewrite app_nil_r. now split. }
  destruct Hstep as (pl & Hrun1 & Hpl).
  erewrite bind_Some by exact Hrun1.
  erewrite bind_Some by (apply len_run; eassumption).
  erewrite bind_Some by reflexivity.
  erewrite bind_Some by reflexivity.
  rewrite length_app. cbn [length]. rewrite Nat.add_1_r.
  rewrite <- app_assoc. cbn [app].
  destruct (rounds_loop_run base (seq 0 (length wl - 1)) [] [] [] pl wl)
    as [pl' Hloop]; [|assumption|].
  { intros rs bs ext. now apply nth_error_front. }
  unfold for_range. erewrite bind_Some by exact Hloop.
  cbn [ret app length]. rewrite length_seq, Nat.add_0_r.
  unfold ret, byes_of. do 3 f_equal;
    unfold base; rewrite length_app; now destruct (_ =? 1).
Qed.

Lemma round_objects_length (wl : list string) (n : nat) :
  length (round_objects wl n) = 2 * n.
Proof.
  revert wl. induction n as [|n IH]; intros wl; [reflexivity|].
  rewrite round_objects_succ, length_app, IH. cbn [length]. lia.
Qed.

Lemma nth_error_round_objects (wl : list string) (n k : nat) :
  k < n ->
  nth_error (round_objects wl n) (2 * k) = Some (Pairs (round_of wl k)) /\
  nth_error (round_objects wl n) (2 * k + 1)
  = Some (Strs (Nat.iter (S k) rotate wl)).
Proof.
  revert wl k. induction n as [|n IH]; intros wl k Hk; [lia|].
  rewrite round_objects_succ. destruct k as [|k].
  - split; reflexivity.
  - destruct (IH (rotate wl) k ltac:(lia)) as [H1 H2].
    replace (2 * S k) with (S (S (2 * k))) by lia. cbn [app nth_error Nat.add].
    rewrite H1, H2, round_of_succ, <- (iter_rotate_succ (S k)). now split.
Qed.

Lemma read_all_map (s : store) (f : nat -> loc) (g : nat -> round) (l : list nat) :
  (forall k, In k l -> read_pairs s (f k) = Some (g k)) ->
  read_all s (map f l) = Some (map g l).
Proof.
  induction l as [|a l IH]; intros H; [reflexivity|].
  cbn [map read_all]. rewrite (H a (or_introl eq_refl)), IH; [reflexivity|].
  intros k Hk. apply H. now right.
Qed.

(** The result lists, read back from the store the call leaves. *)
Lemma read_final_store (s : store) (players : list string) :
  read_schedule (final_store s players) (result_locs s players)
  = Some (schedule_of players).
Proof.
  unfold read_schedule, final_store, result_locs, rounds_loc, schedule_of.
  cbn [fst snd].
  destruct (length players <? 2).
  { unfold read_rounds, read_strs.
    now rewrite nth_error_middle, nth_error_second. }
  set (wl := working_list players).
  set (base := s ++ (if length players mod 2 =? 1 then [Strs wl] else [])).
  replace (length s + (if length players mod 2 =? 1 then 1 else 0))
    with (length base)
    by (unfold base; rewrite length_app; now destruct (_ =? 1)).
  set (fs := base ++ _).
  assert (Hbyes : read_strs fs (S (length base)) = Some (byes_of wl)).
  { unfold read_strs, fs. cbn [app]. now rewrite nth_error_second. }
  assert (Hrounds : read_rounds fs (length base) = Some (rounds_of wl)).
  { unfold read_rounds, fs. cbn [app]. rewrite nth_error_middle.
    unfold round_locs, rounds_of. apply read_all_map.
    intros k Hk%in_seq. unfold read_pairs.
    replace (base ++ Refs (map (fun k => length base + 2 + 2 * k)
                               (seq 0 (length wl - 1)))
               :: Strs (byes_of wl) :: round_objects wl (length wl - 1))
      with ((base ++ [Refs (map (fun k => length base + 2 + 2 * k)
                                (seq 0 (length wl - 1)));
                      Strs (byes_of wl)])
              ++ round_objects wl (length wl - 1))
      by (now rewrite <- app_assoc).
    rewrite nth_error_app2 by (rewrite length_app; cbn [length]; lia).
    rewrite length_app. cbn [length].
    replace (length base + 2 + 2 * k - (length base + 2)) with (2 * k) by lia.
    now rewrite (proj1 (nth_error_round_objects wl (length wl - 1) k ltac:(lia))). }
  now rewrite Hrounds, Hbyes.
Qed.

Lemma run_eq (s : store) (p : loc) (players : list string) :
  nth_error s p = Some (Strs players) -> run s p = Some (schedule_of players).
Proof.
  intros Hp. unfold run. rewrite (generate_round_robin_run s p players Hp).
  apply read_final_store.
Qed.

Lemma call_eq (players : list string) : call players = Some (schedule_of players).
Proof. now apply run_eq. Qed.

(** ** One round *)

Lemma last_bye_app (ps qs : list pairing) (b : option string) :
  last_bye (ps ++ qs) b = last_bye qs (last_bye ps b).
Proof. apply fold_left_app. Qed.

(** The inner loop reads the front half against the back half reversed. *)
Lemma index_pairs_combine (wl : list string) (h : nat) :
  length wl = 2 * h ->
  index_pairs wl = combine (firstn h wl) (rev (skipn h wl)).
Proof.
  intros Hlen. unfold index_pairs.
  replace (length wl / 2) with h
    by (rewrite Hlen, Nat.mul_comm; now rewrite Nat.div_mul).
  apply (nth_ext _ _ (nth 0 wl "", nth (length wl - 1 - 0) wl "") ("", "")).
  - rewrite length_map, length_seq, length_combine, length_firstn,
      length_rev, length_skipn. lia.
  - intros i Hi. rewrite length_map, length_seq in Hi.
    rewrite (map_nth (fun i => (nth i wl "", nth (length wl - 1 - i) wl ""))).
    rewrite seq_nth by assumption. cbn [Nat.add].
    rewrite combine_nth
      by (rewrite length_firstn, length_rev, length_skipn; lia).
    rewrite nth_firstn.
    destruct (Nat.ltb_spec i h) as [_|]; [|lia].
    rewrite rev_nth by (rewrite length_skipn; lia).
    rewrite length_skipn, nth_skipn.
    do 2 f_equal. lia.
Qed.

Lemma combine_fst_snd (l1 l2 : list string) :
  length l1 = length l2 ->
  map fst (combine l1 l2) = l1 /\ map snd (combine l1 l2) = l2.
Proof.
  revert l2.
  induction l1 as [|a l1 IH]; intros [|b l2] Hlen; try discriminate; [now split|].
  injection Hlen as Hlen. destruct (IH l2 Hlen) as [E1 E2].
  cbn. now rewrite E1, E2.
Qed.

Lemma members_combine (l1 l2 : list string) :
  length l1 = length l2 -> members (combine l1 l2) = l1 ++ l2.
Proof.
  intros Hlen. unfold members.
  destruct (combine_fst_snd l1 l2 Hlen) as [-> ->]. reflexivity.
Qed.

Lemma members_index_pairs (wl : list string) (h : nat) :
  length wl = 2 * h -> Permutation (members (index_pairs wl)) wl.
Proof.
  intros Hlen. rewrite (index_pairs_combine wl h Hlen).
  rewrite members_combine
    by (rewrite length_firstn, length_rev, length_skipn; lia).
  rewrite <- (firstn_skipn h wl) at 3.
  apply Permutation_app_head. symmetry. apply Permutation_rev.
Qed.

(** ** The working list from round to round *)

Lemma rotate_perm (l : list string) : Permutation (rotate l) l.
Proof.
  destruct l as [|a [|b t]]; try reflexivity.
  cbn. apply perm_skip. symmetry. apply Permutation_cons_append.
Qed.

Lemma iter_rotate_perm (k : nat) (l : list string) :
  Permutation (Nat.iter k rotate l) l.
Proof.
  induction k as [|k IH]; [reflexivity|].
  cbn. now rewrite rotate_perm.
Qed.

Lemma nth_rotate (l : list string) (m j : nat) (d : string) :
  length l = S m -> 1 <= m -> j <= m ->
  nth j (rotate l) d
  = nth (if j =? 0 then 0 else if j =? m then 1 else j + 1) l d.
Proof.
  intros Hlen Hm Hj.
  destruct l as [|a [|b t]]; cbn in Hlen; try lia.
  assert (Ht : length t = m - 1) by lia.
  cbn [rotate app].
  destruct (Nat.eqb_spec j 0) as [->|Hj0]; [reflexivity|].
  destruct j as [|j]; [lia|].
  destruct (Nat.eqb_spec (S j) m) as [E|E]; cbn [nth].
  - rewrite app_nth2 by lia.
    replace (j - length t) with 0 by lia. reflexivity.
  - rewrite app_nth1 by lia.
    replace (S j + 1) with (S (S j)) by lia. reflexivity.
Qed.

Lemma origin_le (m k j : nat) : j <= m -> k < m -> origin m k j <= m.
Proof.
  intros Hj Hk. unfold origin.
  destruct (Nat.eqb_spec j 0); [lia|].
  destruct (Nat.ltb_spec (j - 1 + k) m); lia.
Qed.

(** Position [j] of the working list of round [k] holds the player that
    started at [origin m k j]. *)
Lemma nth_iter_rotate (wl : list string) (m : nat) (d : string) :
  length wl = S m -> 1 <= m ->
  forall k j, k <= m -> j <= m ->
  nth j (Nat.iter k rotate wl) d = nth (origin m k j) wl d.
Proof.
  intros Hlen Hm k.
  induction k as [|k IH]; intros j Hk Hj.
  - cbn. f_equal. unfold origin.
    destruct (Nat.eqb_spec j 0); [lia|].
    destruct (Nat.ltb_spec (j - 1 + 0) m); lia.
  - change (Nat.iter (S k) rotate wl) with (rotate (Nat.iter k rotate wl)).
    rewrite (nth_rotate _ m) by (rewrite ?iter_rotate_length; lia).
    rewrite IH.
    + f_equal. unfold origin.
      destruct (Nat.eqb_spec j 0) as [->|Hj0]; [reflexivity|].
      destruct (Nat.eqb_spec j m) as [->|Hjm].
      * cbn [Nat.eqb].
        destruct (Nat.ltb_spec (1 - 1 + k) m), (Nat.ltb_spec (m - 1 + S k) m); lia.
      * destruct (Nat.eqb_spec (j + 1) 0); [lia|].
        destruct (Nat.ltb_spec (j + 1 - 1 + k) m), (Nat.ltb_spec (j - 1 + S k) m); lia.
    + lia.
    + destruct (Nat.eqb_spec j 0); [lia|]. destruct (Nat.eqb_spec j m); lia.
Qed.

(** The circle method reaches every pair of positions: for [p < q] among
    the [2h + 2] positions there are a round [k] and an index [i] of the
    inner loop whose two positions started at [p] and [q]. *)
Lemma origin_meets (h p q : nat) :
  p < q -> q <= 2 * h + 1 ->
  exists k i, k < 2 * h + 1 /\ i <= h /\
    ((origin (2 * h + 1) k i = p /\ origin (2 * h + 1) k (2 * h + 1 - i) = q) \/
     (origin (2 * h + 1) k i = q /\ origin (2 * h + 1) k (2 * h + 1 - i) = p)).
Proof.
  intros Hpq Hq. set (m := 2 * h + 1).
  destruct (Nat.eq_dec p 0) as [->|Hp].
  - (* against the fixed player *)
    exists (if q =? m then 0 else q), 0.
    unfold origin. rewrite Nat.sub_0_r.
    destruct (Nat.eqb_spec q m) as [->|Hqm].
    + repeat split; try lia. left. split; [reflexivity|].
      destruct (Nat.eqb_spec m 0); [lia|].
      destruct (Nat.ltb_spec (m - 1 + 0) m); lia.
    + repeat split; try lia. left. split; [reflexivity|].
      destruct (Nat.eqb_spec m 0); [lia|].
      destruct (Nat.ltb_spec (m - 1 + q) m); lia.
  - destruct (Nat.Even_or_Odd (q - p)) as [[e He]|[o Ho]].
    + (* even distance: index e, the back position started at p *)
      exists (p + e), e. subst m. unfold origin.
      repeat split; try lia. right.
      destruct (Nat.eqb_spec e 0); [lia|].
      destruct (Nat.eqb_spec (2 * h + 1 - e) 0); [lia|].
      destruct (Nat.ltb_spec (e - 1 + (p + e)) (2 * h + 1)),
               (Nat.ltb_spec (2 * h + 1 - e - 1 + (p + e)) (2 * h + 1)); lia.
    + (* odd distance: index h - o, the front position started at p *)
      exists (if h - o <=? p then p - (h - o) else p + 2 * h + 1 - (h - o)), (h - o).
      subst m. unfold origin.
      destruct (Nat.leb_spec (h - o) p).
      * repeat split; try lia. left.
        destruct (Nat.eqb_spec (h - o) 0); [lia|].
        destruct (Nat.eqb_spec (2 * h + 1 - (h - o)) 0); [lia|].
        destruct (Nat.ltb_spec (h - o - 1 + (p - (h - o))) (2 * h + 1)),
                 (Nat.ltb_spec (2 * h + 1 - (h - o) - 1 + (p - (h - o))) (2 * h + 1)); lia.
      * repeat split; try lia. left.
        destruct (Nat.eqb_spec (h - o) 0); [lia|].
        destruct (Nat.eqb_spec (2 * h + 1 - (h - o)) 0); [lia|].
        destruct (Nat.ltb_spec (h - o - 1 + (p + 2 * h + 1 - (h - o))) (2 * h + 1)),
                 (Nat.ltb_spec (2 * h + 1 - (h - o) - 1 + (p + 2 * h + 1 - (h - o))) (2 * h + 1)); lia.
Qed.

(** ** Every pair of positions is used once *)

Lemma in_position_pairs (n p q : nat) :
  In (p, q) (position_pairs n) <-> p < q /\ q < n.
Proof.
  induction n as [|n IH]; cbn [position_pairs].
  - cbn. lia.
  - rewrite in_app_iff, IH, in_map_iff. split.
    + intros [H|(x & E & Hx)]; [lia|].
      injection E as -> ->. apply in_seq in Hx. lia.
    + intros [Hpq Hq]. destruct (Nat.eq_dec q n) as [->|Hn]; [right|left; lia].
      exists p. split; [reflexivity|]. apply in_seq. lia.
Qed.

Lemma position_pairs_NoDup (n : nat) : NoDup (position_pairs n).
Proof.
  induction n as [|n IH]; cbn [position_pairs]; [constructor|].
  apply NoDup_app; [assumption| |].
  - apply Finite.Injective_map_NoDup; [|apply seq_NoDup].
    intros x y E. now injection E.
  - intros [p q] Hin Hin'. apply in_position_pairs in Hin.
    apply in_map_iff in Hin' as (x & E & _). injection E as _ ->. lia.
Qed.

Lemma position_pairs_length (n : nat) :
  2 * length (position_pairs n) = n * (n - 1).
Proof.
  induction n as [|n IH]; [reflexivity|].
  cbn [position_pairs]. rewrite length_app, length_map, length_seq.
  destruct n; [reflexivity|]. cbn [Nat.sub] in *. nia.
Qed.

Lemma slots_length (h : nat) : length (slots h) = (2 * h + 1) * S h.
Proof.
  unfold slots. rewrite length_flat_map.
  erewrite map_ext by (intros k; rewrite length_map, length_seq; reflexivity).
  assert (E : forall l : list nat,
             list_sum (map (fun _ => S h) l) = length l * S h).
  { induction l as [|a l IH]; [reflexivity|].
    change (S h + list_sum (map (fun _ => S h) l) = S (length l) * S h).
    rewrite IH. lia. }
  now rewrite E, length_seq.
Qed.

Lemma in_slots (h x y : nat) :
  In (x, y) (slots h) <->
  exists k i, k < 2 * h + 1 /\ i <= h /\
              x = origin (2 * h + 1) k i /\
              y = origin (2 * h + 1) k (2 * h + 1 - i).
Proof.
  unfold slots. rewrite in_flat_map. split.
  - intros (k & Hk & Hin). apply in_map_iff in Hin as (i & E & Hi).
    injection E as <- <-. apply in_seq in Hk, Hi.
    exists k, i. repeat split; lia.
  - intros (k & i & Hk & Hi & -> & ->). exists k. split; [apply in_seq; lia|].
    apply in_map_iff. exists i. split; [reflexivity|apply in_seq; lia].
Qed.

Lemma slots_bound (h x y : nat) :
  In (x, y) (slots h) -> x <= 2 * h + 1 /\ y <= 2 * h + 1.
Proof.
  intros (k & i & Hk & Hi & -> & ->)%in_slots.
  split; apply origin_le; lia.
Qed.

Lemma slots_complete (h p q : nat) :
  p < q -> q <= 2 * h + 1 -> In (p, q) (map ordered (slots h)).
Proof.
  intros Hpq Hq.
  destruct (origin_meets h p q Hpq Hq) as (k & i & Hk & Hi & [[E1 E2]|[E1 E2]]).
  - apply in_map_iff. exists (p, q). split.
    + unfold ordered. cbn [fst snd]. destruct (Nat.ltb_spec p q); [reflexivity|lia].
    + apply in_slots. exists k, i. now repeat split.
  - apply in_map_iff. exists (q, p). split.
    + unfold ordered. cbn [fst snd]. destruct (Nat.ltb_spec q p); [lia|reflexivity].
    + apply in_slots. exists k, i. now repeat split.
Qed.

(** Pigeonhole: as many slots as position pairs, and every position pair
    is reached, so no pair is reached twice. *)
Lemma slots_NoDup (h : nat) : NoDup (map ordered (slots h)).
Proof.
  apply (@NoDup_incl_NoDup _ (position_pairs (2 * h + 2))).
  - apply position_pairs_NoDup.
  - rewrite length_map, slots_length.
    pose proof (position_pairs_length (2 * h + 2)). nia.
  - intros [p q] (Hpq & Hq)%in_position_pairs.
    apply slots_complete; lia.
Qed.

Lemma filter_none {A : Type} (test : A -> bool) (l : list A) :
  (forall x, In x l -> test x = false) -> filter test l = [].
Proof.
  induction l as [|a l IH]; intros H; [reflexivity|].
  cbn. rewrite (H a (or_introl eq_refl)). apply IH.
  intros x Hx. apply H. now right.
Qed.

(** In a list whose images under [f] are distinct, exactly one element is
    sent to an image that occurs. *)
Lemma NoDup_map_filter_one {A B : Type} (f : A -> B) (test : A -> bool) (y : B)
    (l : list A) :
  NoDup (map f l) -> In y (map f l) ->
  (forall x, In x l -> test x = true <-> f x = y) ->
  length (filter test l) = 1.
Proof.
  induction l as [|a l IH]; intros Hnd Hin Htest; [destruct Hin|].
  cbn [map] in Hnd. apply NoDup_cons_iff in Hnd as [Hnotin Hnd].
  cbn [filter]. destruct (test a) eqn:Ea.
  - apply (Htest a (or_introl eq_refl)) in Ea.
    rewrite filter_none; [reflexivity|].
    intros x Hx. destruct (test x) eqn:Ex; [|reflexivity].
    apply (Htest x (or_intror Hx)) in Ex.
    exfalso. apply Hnotin. rewrite Ea, <- Ex. now apply in_map.
  - apply IH; [assumption| |].
    + destruct Hin as [E|Hin]; [|assumption].
      apply (Htest a (or_introl eq_refl)) in E. congruence.
    + intros x Hx. apply Htest. now right.
Qed.

(** ** The pairings of a schedule, by initial position *)

Lemma index_pairs_round (wl : list string) (h k : nat) :
  length wl = 2 * h + 2 -> k <= 2 * h + 1 ->
  index_pairs (Nat.iter k rotate wl)
  = map (fun i => players_at wl (origin (2 * h + 1) k i,
                                 origin (2 * h + 1) k (2 * h + 1 - i)))
        (seq 0 (S h)).
Proof.
  intros Hlen Hk. unfold index_pairs. rewrite iter_rotate_length, Hlen.
  replace ((2 * h + 2) / 2) with (S h)
    by (replace (2 * h + 2) with (S h * 2) by lia; now rewrite Nat.div_mul).
  apply map_ext_in. intros i Hi%in_seq. unfold players_at. cbn [fst snd].
  rewrite !(nth_iter_rotate wl (2 * h + 1)) by lia.
  do 3 f_equal. lia.
Qed.

Lemma rounds_of_eq (wl : list string) :
  rounds_of wl
  = map (fun k => filter real_pair (index_pairs (Nat.iter k rotate wl)))
        (seq 0 (length wl - 1)).
Proof. reflexivity. Qed.

Lemma byes_of_eq (wl : list string) :
  byes_of wl
  = map (fun k => bye_entry (last_bye (index_pairs (Nat.iter k rotate wl)) None))
        (seq 0 (length wl - 1)).
Proof. reflexivity. Qed.

Lemma concat_rounds_of (wl : list string) (h : nat) :
  length wl = 2 * h + 2 ->
  concat (rounds_of wl) = filter real_pair (map (players_at wl) (slots h)).
Proof.
  intros Hlen. rewrite rounds_of_eq, Hlen.
  replace (2 * h + 2 - 1) with (2 * h + 1) by lia.
  rewrite <- (map_map (fun k => index_pairs (Nat.iter k rotate wl))
                      (filter real_pair)).
  rewrite concat_filter_map. f_equal.
  unfold slots. rewrite flat_map_concat_map, concat_map, map_map.
  f_equal. apply map_ext_in. intros k Hk%in_seq.
  rewrite (index_pairs_round wl h k Hlen) by lia.
  now rewrite map_map.
Qed.

Lemma filter_implied {A : Type} (f g : A -> bool) (l : list A) :
  (forall x, f x = true -> g x = true) ->
  filter f (filter g l) = filter f l.
Proof.
  intros H. induction l as [|a l IH]; [reflexivity|].
  cbn [filter]. destruct (g a) eqn:Eg; cbn [filter].
  - now rewrite IH.
  - destruct (f a) eqn:Ef; [|assumption].
    apply H in Ef. congruence.
Qed.

Lemma same_pairing_real (a b : string) (pr : pairing) :
  a <> BYE -> b <> BYE -> same_pairing a b pr = true -> real_pair pr = true.
Proof.
  intros Ha Hb. unfold same_pairing, real_pair, not_bye.
  destruct pr as [x y]. cbn [fst snd].
  intros [[E1 E2]%andb_prop|[E1 E2]%andb_prop]%orb_prop;
    apply String.eqb_eq in E1, E2; subst;
    apply andb_true_intro; split; apply negb_true_iff, String.eqb_neq; assumption.
Qed.

(** Two players at distinct positions of a duplicate-free working list
    meet in exactly one pairing of the schedule. *)
Lemma meetings_positions (wl : list string) (h p q : nat) :
  length wl = 2 * h + 2 -> NoDup wl ->
  p < q -> q <= 2 * h + 1 ->
  nth p wl "" <> BYE -> nth q wl "" <> BYE ->
  meetings (nth p wl "") (nth q wl "") (rounds_of wl) = 1.
Proof.
  intros Hlen Hnd Hpq Hq Hp' Hq'. unfold meetings.
  rewrite (concat_rounds_of wl h Hlen).
  rewrite filter_implied by (intros x; now apply same_pairing_real).
  rewrite filter_map_swap, length_map.
  apply (NoDup_map_filter_one ordered _ (p, q)).
  - apply slots_NoDup.
  - apply slots_complete; assumption.
  - intros [x y] Hin. destruct (slots_bound h x y Hin) as [Hx Hy].
    unfold same_pairing, players_at, ordered. cbn [fst snd].
    assert (Hinj : forall i j, i <= 2 * h + 1 -> j <= 2 * h + 1 ->
                               nth i wl "" = nth j wl "" -> i = j).
    { intros i j Hi Hj. apply (proj1 (NoDup_nth wl "") Hnd); lia. }
    rewrite orb_true_iff, !andb_true_iff, !String.eqb_eq.
    destruct (Nat.ltb_spec x y) as [Hxy|Hxy]; split.
    + intros [[E1 E2]|[E1 E2]]; apply Hinj in E1, E2; try lia; congruence.
    + intros E. injection E as -> ->. now left.
    + intros [[E1 E2]|[E1 E2]]; apply Hinj in E1, E2; try lia; congruence.
    + intros E. injection E as -> ->. now right.
Qed.

Lemma same_pairing_sym (a b : string) (pr : pairing) :
  same_pairing a b pr = same_pairing b a pr.
Proof.
  unfold same_pairing.
  rewrite orb_comm, (andb_comm (String.eqb b (fst pr))),
    (andb_comm (String.eqb b (snd pr))).
  reflexivity.
Qed.

Lemma meetings_sym (a b : string) (rounds : list round) :
  meetings a b rounds = meetings b a rounds.
Proof.
  unfold meetings. f_equal. apply filter_ext. intros pr. apply same_pairing_sym.
Qed.

(** ** Who appears in a round *)

Lemma occurrences_app (p : string) (ps qs : list pairing) :
  occurrences p (ps ++ qs) = occurrences p ps + occurrences p qs.
Proof.
  unfold occurrences, members, pairing in *.
  rewrite !map_app, !count_occ_app. lia.
Qed.

Lemma occurrences_one (p x y : string) :
  occurrences p [(x, y)]
  = (if string_dec x p then 1 else 0) + (if string_dec y p then 1 else 0).
Proof.
  unfold occurrences, members. cbn [map fst snd app count_occ].
  destruct (string_dec x p), (string_dec y p); reflexivity.
Qed.

Lemma occurrences_cons (p x y : string) (ps : list pairing) :
  occurrences p ((x, y) :: ps)
  = (if string_dec x p then 1 else 0) + (if string_dec y p then 1 else 0)
    + occurrences p ps.
Proof.
  change ((x, y) :: ps) with ([(x, y)] ++ ps).
  now rewrite occurrences_app, occurrences_one.
Qed.

Lemma occurrences_perm (p : string) (wl : list string) (h : nat) :
  length wl = 2 * h ->
  occurrences p (index_pairs wl) = count_occ string_dec wl p.
Proof.
  intros Hlen. unfold occurrences.
  apply Permutation_count_occ. now apply (members_index_pairs wl h).
Qed.

Lemma not_bye_true (x : string) : not_bye x = true <-> x <> BYE.
Proof. unfold not_bye. now rewrite negb_true_iff, String.eqb_neq. Qed.

Lemma not_bye_false (x : string) : not_bye x = false <-> x = BYE.
Proof. unfold not_bye. now rewrite negb_false_iff, String.eqb_eq. Qed.

Lemma real_pair_true (x y : string) :
  real_pair (x, y) = true <-> x <> BYE /\ y <> BYE.
Proof.
  unfold real_pair. cbn [fst snd]. now rewrite andb_true_iff, !not_bye_true.
Qed.

(** The four cases of the inner loop's [if]/[elif] chain. *)
Lemma pair_cases (x y : string) :
  (x <> BYE /\ y <> BYE /\ real_pair (x, y) = true /\ bye_of_pair (x, y) = None) \/
  (x <> BYE /\ y = BYE /\ real_pair (x, y) = false /\ bye_of_pair (x, y) = Some x) \/
  (x = BYE /\ y <> BYE /\ real_pair (x, y) = false /\ bye_of_pair (x, y) = Some y) \/
  (x = BYE /\ y = BYE /\ real_pair (x, y) = false /\ bye_of_pair (x, y) = None).
Proof.
  unfold bye_of_pair, real_pair. cbn [fst snd].
  destruct (not_bye x) eqn:Ex, (not_bye y) eqn:Ey; cbn [andb];
    first [apply not_bye_true in Ex | apply not_bye_false in Ex];
    first [apply not_bye_true in Ey | apply not_bye_false in Ey];
    [left | right; left | right; right; left | right; right; right];
    repeat split; assumption.
Qed.

Lemma last_bye_snoc (ps : list pairing) (pr : pairing) (b : option string) :
  last_bye (ps ++ [pr]) b
  = match bye_of_pair pr with Some x => Some x | None => last_bye ps b end.
Proof. now rewrite last_bye_app. Qed.

(** A bye player is never the placeholder, and sat opposite it. *)
Lemma last_bye_inv (ps : list pairing) (x : string) :
  last_bye ps None = Some x ->
  x <> BYE /\ (In (x, BYE) ps \/ In (BYE, x) ps).
Proof.
  induction ps as [|[u v] ps IH] using rev_ind; [discriminate|].
  rewrite last_bye_snoc. rewrite !in_app_iff. cbn [In].
  destruct (pair_cases u v) as [(Hu & Hv & _ & ->)|[(Hu & Hv & _ & ->)|
                               [(Hu & Hv & _ & ->)|(Hu & Hv & _ & ->)]]].
  - intros H. apply IH in H. tauto.
  - intros [= <-]. subst v. tauto.
  - intros [= <-]. subst u. tauto.
  - intros H. apply IH in H. tauto.
Qed.

Lemma occurrences_In_l (x y : string) (ps : list pairing) :
  In (x, y) ps -> 1 <= occurrences x ps /\ 1 <= occurrences y ps.
Proof.
  intros Hin. unfold occurrences, members.
  split; apply count_occ_In, in_app_iff.
  - left. now apply (in_map fst) in Hin.
  - right. now apply (in_map snd) in Hin.
Qed.

Lemma bye_count_entry (p : string) (b : option string) :
  bye_count p (bye_entry b)
  = match b with
    | Some x => if String.eqb x "" then 0 else if String.eqb x p then 1 else 0
    | None => 0
    end.
Proof.
  unfold bye_count, bye_entry, has_bye. destruct b as [x|]; [|reflexivity].
  destruct (String.eqb_spec x "") as [->|Hx]; [reflexivity|].
  destruct (String.eqb_spec x "") as [|_]; [contradiction|]. reflexivity.
Qed.

(** The placeholder never appears in a round. *)
Lemma appearances_BYE (ps : list pairing) :
  appearances BYE (filter real_pair ps) (bye_entry (last_bye ps None)) = 0.
Proof.
  unfold appearances.
  assert (H1 : occurrences BYE (filter real_pair ps) = 0).
  { induction ps as [|[x y] ps IH]; [reflexivity|].
    cbn [filter]. destruct (real_pair (x, y)) eqn:E; [|assumption].
    apply real_pair_true in E as [Hx Hy].
    rewrite occurrences_cons, IH.
    destruct (string_dec x BYE), (string_dec y BYE);
      [contradiction..|reflexivity]. }
  rewrite H1, bye_count_entry.
  destruct (last_bye ps None) as [x|] eqn:E; [|reflexivity].
  apply last_bye_inv in E as [Hx _].
  destruct (String.eqb_spec x ""); [reflexivity|].
  destruct (String.eqb_spec x BYE); [contradiction|reflexivity].
Qed.

(** A player appears in a round at most as often as among the pairs the
    loop read. *)
Lemma appearances_le (p : string) (ps : list pairing) :
  p <> BYE ->
  appearances p (filter real_pair ps) (bye_entry (last_bye ps None))
  <= occurrences p ps.
Proof.
  intros Hp. unfold appearances.
  induction ps as [|[x y] ps IH] using rev_ind; [cbn; lia|].
  rewrite filter_app, !occurrences_app, last_bye_snoc, occurrences_one.
  cbn [filter]. rewrite bye_count_entry in *.
  destruct (pair_cases x y) as [(Hx & Hy & -> & ->)|[(Hx & Hy & -> & ->)|
                               [(Hx & Hy & -> & ->)|(Hx & Hy & -> & ->)]]].
  - rewrite occurrences_one. lia.
  - cbn. destruct (String.eqb_spec x ""), (String.eqb_spec x p),
      (string_dec x p), (string_dec y p); try congruence; lia.
  - cbn. destruct (String.eqb_spec y ""), (String.eqb_spec y p),
      (string_dec x p), (string_dec y p); try congruence; lia.
  - cbn. lia.
Qed.

(** With at most one placeholder and no empty name among the pairs read,
    nobody is lost: a player is in a pairing or is the bye player. *)
Lemma appearances_eq (p : string) (ps : list pairing) :
  p <> BYE -> occurrences BYE ps <= 1 -> occurrences "" ps = 0 ->
  appearances p (filter real_pair ps) (bye_entry (last_bye ps None))
  = occurrences p ps.
Proof.
  intros Hp. unfold appearances.
  induction ps as [|[x y] ps IH] using rev_ind; [reflexivity|].
  rewrite filter_app, !occurrences_app, last_bye_snoc, !occurrences_one.
  intros Hbye Hempty.
  assert (Hx0 : x <> "") by (destruct (string_dec x ""); [lia|assumption]).
  assert (Hy0 : y <> "") by (destruct (string_dec y ""); [lia|assumption]).
  specialize (IH ltac:(lia) ltac:(lia)).
  cbn [filter]. rewrite bye_count_entry in *.
  assert (Hnone : occurrences BYE ps = 0 -> last_bye ps None = None).
  { intros H0. destruct (last_bye ps None) as [z|] eqn:E; [|reflexivity].
    apply last_bye_inv in E as [_ [Hin|Hin]];
      apply occurrences_In_l in Hin; lia. }
  destruct (pair_cases x y) as [(Hx & Hy & -> & ->)|[(Hx & Hy & -> & ->)|
                               [(Hx & Hy & -> & ->)|(Hx & Hy & -> & ->)]]].
  - rewrite occurrences_one. lia.
  - rewrite Hnone in IH
      by (destruct (string_dec x BYE), (string_dec y BYE); try congruence; lia).
    change (occurrences p []) with 0.
    destruct (String.eqb_spec x ""), (String.eqb_spec x p),
      (string_dec x p), (string_dec y p); try congruence; lia.
  - rewrite Hnone in IH
      by (destruct (string_dec x BYE), (string_dec y BYE); try congruence; lia).
    change (occurrences p []) with 0.
    destruct (String.eqb_spec y ""), (String.eqb_spec y p),
      (string_dec x p), (string_dec y p); try congruence; lia.
  - destruct (string_dec x BYE), (string_dec y BYE); try congruence; lia.
Qed.

Lemma nth_map_seq {A : Type} (f : nat -> A) (n k : nat) (d : A) :
  k < n -> nth k (map f (seq 0 n)) d = f k.
Proof.
  intros Hk. rewrite (nth_indep _ d (f 0)) by (now rewrite length_map, length_seq).
  rewrite map_nth, seq_nth by assumption. reflexivity.
Qed.

Lemma nth_rounds_of (wl : list string) (k : nat) :
  k < length wl - 1 ->
  nth k (rounds_of wl) [] = filter real_pair (index_pairs (Nat.iter k rotate wl)).
Proof.
  intros Hk. rewrite rounds_of_eq.
  now rewrite (nth_map_seq
                 (fun k => filter real_pair (index_pairs (Nat.iter k rotate wl)))).
Qed.

Lemma nth_byes_of (wl : list string) (k : nat) :
  k < length wl - 1 ->
  nth k (byes_of wl) ""
  = bye_entry (last_bye (index_pairs (Nat.iter k rotate wl)) None).
Proof.
  intros Hk. rewrite byes_of_eq.
  now rewrite (nth_map_seq
                 (fun k => bye_entry
                             (last_bye (index_pairs (Nat.iter k rotate wl)) None))).
Qed.

Lemma rounds_of_length (wl : list string) : length (rounds_of wl) = length wl - 1.
Proof. unfold rounds_of. now rewrite length_map, length_seq. Qed.

Lemma byes_of_length (wl : list string) : length (byes_of wl) = length wl - 1.
Proof. unfold byes_of. now rewrite length_map, length_seq. Qed.

Lemma index_pairs_length (wl : list string) :
  length (index_pairs wl) = length wl / 2.
Proof. unfold index_pairs. now rewrite length_map, length_seq. Qed.

(** The pairs of round [k] hold the same players as the working list. *)
Lemma occurrences_round (p : string) (wl : list string) (h k : nat) :
  length wl = 2 * h ->
  occurrences p (index_pairs (Nat.iter k rotate wl)) = count_occ string_dec wl p.
Proof.
  intros Hlen.
  rewrite (occurrences_perm p _ h) by (now rewrite iter_rotate_length).
  apply Permutation_count_occ, iter_rotate_perm.
Qed.

Lemma count_working_list (p : string) (players : list string) :
  count_occ string_dec (working_list players) p
  = count_occ string_dec players p
    + (if length players mod 2 =? 1 then if string_dec BYE p then 1 else 0 else 0).
Proof.
  unfold working_list. destruct (_ =? 1); [|lia].
  rewrite count_occ_app. cbn [count_occ].
  destruct (string_dec BYE p); reflexivity.
Qed.

(** Each pair that is not kept as a pairing holds a placeholder. *)
Lemma real_count (ps : list pairing) :
  occurrences BYE ps <= 1 ->
  length (filter real_pair ps) + occurrences BYE ps = length ps.
Proof.
  induction ps as [|[x y] ps IH]; [reflexivity|].
  rewrite occurrences_cons. intros H. cbn [filter length].
  destruct (pair_cases x y) as [(Hx & Hy & -> & _)|[(Hx & Hy & -> & _)|
                               [(Hx & Hy & -> & _)|(Hx & Hy & -> & _)]]];
    cbn [length];
    destruct (string_dec x BYE), (string_dec y BYE); try contradiction; lia.
Qed.

Lemma last_bye_clean (ps : list pairing) (b : option string) :
  occurrences BYE ps = 0 -> last_bye ps b = b.
Proof.
  revert b. induction ps as [|[x y] ps IH]; intros b; [reflexivity|].
  rewrite occurrences_cons. intros H.
  change (last_bye ((x, y) :: ps) b)
    with (last_bye ps (match bye_of_pair (x, y) with Some z => Some z | None => b end)).
  destruct (pair_cases x y) as [(Hx & Hy & _ & ->)|[(Hx & Hy & _ & ->)|
                               [(Hx & Hy & _ & ->)|(Hx & Hy & _ & ->)]]];
    destruct (string_dec x BYE), (string_dec y BYE); try contradiction; try lia.
  apply IH. lia.
Qed.

(** With a single placeholder among the pairs, the player opposite it ends
    up as the bye player. *)
Lemma last_bye_at (ps : list pairing) (x : string) :
  occurrences BYE ps <= 1 ->
  In (x, BYE) ps \/ In (BYE, x) ps ->
  last_bye ps None = Some x.
Proof.
  intros Hocc Hin.
  assert (Hsplit : exists l1 pr l2, ps = l1 ++ pr :: l2 /\
                                    (pr = (x, BYE) \/ pr = (BYE, x))).
  { destruct Hin as [Hin|Hin]; apply in_split in Hin as (l1 & l2 & ->);
      eexists l1, _, l2; split; eauto. }
  destruct Hsplit as (l1 & pr & l2 & -> & Hpr).
  change (pr :: l2) with ([pr] ++ l2) in *.
  rewrite !occurrences_app in Hocc. rewrite !last_bye_app.
  assert (Hone : occurrences BYE [pr] = 1 + (if string_dec x BYE then 1 else 0)).
  { destruct Hpr as [-> | ->]; rewrite occurrences_one;
      destruct (string_dec BYE BYE), (string_dec x BYE); try contradiction; lia. }
  destruct (string_dec x BYE) as [|Hx]; [lia|].
  rewrite (last_bye_clean l2) by lia.
  destruct Hpr as [-> | ->]; unfold last_bye at 1; cbn [fold_left].
  - destruct (pair_cases x BYE) as [(_ & H & _)|[(_ & _ & _ & ->)|
                                   [(H & _)|(H & _)]]]; congruence.
  - destruct (pair_cases BYE x) as [(H & _)|[(H & _)|
                                   [(_ & _ & _ & ->)|(_ & H & _)]]]; congruence.
Qed.

(** A placeholder among the pairs sits opposite somebody. *)
Lemma bye_has_opponent (ps : list pairing) :
  1 <= occurrences BYE ps -> exists x, In (x, BYE) ps \/ In (BYE, x) ps.
Proof.
  intros H. unfold occurrences in H.
  assert (Hin : In BYE (members ps)) by (apply (count_occ_In string_dec); lia).
  apply in_app_iff in Hin as [Hin|Hin]; apply in_map_iff in Hin as ([u v] & E & Hin);
    cbn in E; subst.
  - exists v. now right.
  - exists u. now left.
Qed.

Lemma occurrences_filter_le (f : pairing -> bool) (p : string)
      (ps : list pairing) :
  occurrences p (filter f ps) <= occurrences p ps.
Proof.
  induction ps as [|[x y] ps IH]; [reflexivity|].
  cbn [filter]. destruct (f (x, y)); rewrite ?occurrences_cons; lia.
Qed.

(** A player the loop does not read opposite a placeholder keeps its
    pairing. *)
Lemma occurrences_real (p : string) (ps : list pairing) :
  p <> BYE -> ~ (In (p, BYE) ps \/ In (BYE, p) ps) ->
  occurrences p (filter real_pair ps) = occurrences p ps.
Proof.
  intros Hp. induction ps as [|[x y] ps IH]; [reflexivity|].
  intros Hno.
  assert (IH' : occurrences p (filter real_pair ps) = occurrences p ps)
    by (apply IH; cbn [In] in Hno; tauto).
  cbn [filter].
  destruct (pair_cases x y) as [(Hx & Hy & -> & _)|[(Hx & Hy & -> & _)|
                               [(Hx & Hy & -> & _)|(Hx & Hy & -> & _)]]];
    rewrite ?occurrences_cons, IH'; [reflexivity|..];
    destruct (string_dec x p) as [Ex|Ex], (string_dec y p) as [Ey|Ey];
    try congruence; try reflexivity;
    exfalso; apply Hno; cbn [In]; subst; tauto.
Qed.

(** A player read once, opposite a placeholder, is in no pairing. *)
Lemma occurrences_sitting_out (p : string) (ps : list pairing) :
  p <> BYE -> occurrences p ps = 1 ->
  In (p, BYE) ps \/ In (BYE, p) ps ->
  occurrences p (filter real_pair ps) = 0.
Proof.
  intros Hp Hone Hin.
  assert (Hsplit : exists l1 pr l2, ps = l1 ++ pr :: l2 /\
                                    (pr = (p, BYE) \/ pr = (BYE, p))).
  { destruct Hin as [Hin|Hin]; apply in_split in Hin as (l1 & l2 & ->);
      eexists l1, _, l2; split; eauto. }
  destruct Hsplit as (l1 & pr & l2 & -> & Hpr).
  change (pr :: l2) with ([pr] ++ l2) in *.
  rewrite !occurrences_app in Hone. rewrite !filter_app, !occurrences_app.
  pose proof (occurrences_filter_le real_pair p l1).
  pose proof (occurrences_filter_le real_pair p l2).
  assert (Hpr1 : occurrences p [pr] = 1 /\ filter real_pair [pr] = []).
  { destruct Hpr as [-> | ->]; rewrite occurrences_one; cbn [filter].
    - destruct (pair_cases p BYE) as [(_ & H' & _)|[(_ & _ & -> & _)|
                                     [(H' & _)|(H' & _)]]]; try congruence.
      destruct (string_dec p p), (string_dec BYE p); try congruence. now split.
    - destruct (pair_cases BYE p) as [(H' & _)|[(H' & _)|
                                     [(_ & _ & -> & _)|(_ & H' & _)]]]; try congruence.
      destruct (string_dec p p), (string_dec BYE p); try congruence. now split. }
  destruct Hpr1 as [H1 ->]. change (occurrences p []) with 0. lia.
Qed.

(** In a round that does not read it opposite a placeholder, a player
    appears as often as among the pairs read. *)
Lemma appearances_paired (p : string) (ps : list pairing) :
  p <> BYE -> ~ (In (p, BYE) ps \/ In (BYE, p) ps) ->
  appearances p (filter real_pair ps) (bye_entry (last_bye ps None))
  = occurrences p ps.
Proof.
  intros Hp Hno. unfold appearances.
  rewrite occurrences_real, bye_count_entry by assumption.
  destruct (last_bye ps None) as [x|] eqn:E; [|lia].
  apply last_bye_inv in E as [_ Hin].
  destruct (String.eqb_spec x ""); [lia|].
  destruct (String.eqb_spec x p) as [->|_]; [contradiction|lia].
Qed.

(** Read once, opposite the only placeholder, a player is the bye player
    of the round, unless its name is the empty string. *)
Lemma appearances_sitting_out (p : string) (ps : list pairing) :
  p <> BYE -> occurrences p ps = 1 -> occurrences BYE ps <= 1 ->
  In (p, BYE) ps \/ In (BYE, p) ps ->
  appearances p (filter real_pair ps) (bye_entry (last_bye ps None))
  = if String.eqb p "" then 0 else 1.
Proof.
  intros Hp Hone Hbye Hin. unfold appearances.
  rewrite occurrences_sitting_out by assumption.
  rewrite (last_bye_at ps p) by assumption.
  rewrite bye_count_entry, String.eqb_refl.
  now destruct (String.eqb p "").
Qed.

(** ** The whole schedule *)

Lemma nth_working_list (players : list string) (p : nat) :
  p < length players -> nth p (working_list players) "" = nth p players "".
Proof.
  intros Hp. unfold working_list. destruct (_ =? 1); [|reflexivity].
  now apply app_nth1.
Qed.

Lemma working_list_NoDup (players : list string) :
  NoDup players -> ~ In BYE players -> NoDup (working_list players).
Proof.
  intros Hnd Hbye. unfold working_list. destruct (_ =? 1); [|assumption].
  apply NoDup_app; [assumption|repeat constructor; intros []|].
  intros a Ha [<-|[]]. contradiction.
Qed.

(** From two players on, the working list has an even length [2h + 2]. *)
Lemma working_list_shape (players : list string) :
  2 <= length players ->
  exists h, length (working_list players) = 2 * h + 2 /\
            length players = 2 * h + 2 - (if length players mod 2 =? 1 then 1 else 0).
Proof.
  intros HN. destruct (working_list_even players) as [h' Hh'].
  rewrite working_list_length in *.
  exists (h' - 1). destruct (_ =? 1); lia.
Qed.

Lemma list_sum_const (c : nat) (l : list nat) :
  list_sum (map (fun _ => c) l) = length l * c.
Proof.
  induction l as [|a l IH]; [reflexivity|].
  change (c + list_sum (map (fun _ => c) l) = S (length l) * c).
  rewrite IH. lia.
Qed.

Lemma round_size (wl : list string) (h k : nat) :
  length wl = 2 * h + 2 -> count_occ string_dec wl BYE <= 1 ->
  length (filter real_pair (index_pairs (Nat.iter k rotate wl)))
  = S h - count_occ string_dec wl BYE.
Proof.
  intros Hlen Hc.
  pose proof (occurrences_round BYE wl (S h) k ltac:(lia)) as Hocc.
  pose proof (real_count (index_pairs (Nat.iter k rotate wl)) ltac:(lia)) as Hreal.
  rewrite index_pairs_length, iter_rotate_length, Hlen in Hreal.
  replace ((2 * h + 2) / 2) with (S h) in Hreal
    by (replace (2 * h + 2) with (S h * 2) by lia; now rewrite Nat.div_mul).
  lia.
Qed.

Lemma total_pairings (wl : list string) (h : nat) :
  length wl = 2 * h + 2 -> count_occ string_dec wl BYE <= 1 ->
  length (concat (rounds_of wl))
  = (2 * h + 1) * (S h - count_occ string_dec wl BYE).
Proof.
  intros Hlen Hc. rewrite length_concat, rounds_of_eq, map_map.
  erewrite map_ext by (intros k; apply (round_size wl h k Hlen Hc)).
  rewrite list_sum_const, length_seq, Hlen. f_equal. lia.
Qed.

(** * The properties of the specification *)

(** C1 fails on the code: a participant called "BYE" is taken for the
    placeholder of line 54.  For [["Alice"; "BYE"]], two unique
    participants, the call returns one round without any pairing and the
    bye player Alice: the two never meet, and the schedule has no pairing
    where [N * (N - 1) / 2] is one.  The text built from this result
    still counts "BYE" among the players. *)
Theorem pairs_meet_once_fails_with_BYE :
  NoDup ["Alice"; "BYE"] /\ 2 <= length ["Alice"; "BYE"] /\
  call ["Alice"; "BYE"] = Some ([[]], ["Alice"]) /\
  ~ complete ["Alice"; "BYE"] /\
  tournament_text ["Alice"; "BYE"]
  = Some "🎯 **Round Robin Tournament**

👥 **Players:** Alice, BYE
📊 **Total Players:** 2
🔄 **Total Rounds:** 1

**Round 1:**
  😴 Alice (bye)

".
Proof.
  split; [distinct_names|]. split; [cbn; lia|].
  split; [reflexivity|]. split; [|reflexivity].
  intros (rounds & byes & Hcall & _ & Htotal).
  vm_compute in Hcall. injection Hcall as <- <-.
  vm_compute in Htotal. discriminate.
Qed.

(** C2, as stated, fails on a list with a participant whose name is the
    empty string: in the round where that one sits out, the entry of
    [byes_per_round] is the empty "no bye", so the participant is in no
    pairing and is not the bye player either. *)
Lemma appears_once_fails :
  NoDup [""; "Alice"; "Bob"] /\ 2 <= length [""; "Alice"; "Bob"] /\
  ~ rounds_valid [""; "Alice"; "Bob"].
Proof.
  split; [distinct_names|split; [cbn; lia|]].
  intros (rounds & byes & Hcall & Hvalid).
  vm_compute in Hcall. injection Hcall as <- <-.
  specialize (Hvalid 0 "" ltac:(cbn; lia) ltac:(cbn; tauto)).
  vm_compute in Hvalid. discriminate.
Qed.

(** C2 (amended): for every list of [N >= 2] unique participants and every
    round returned, each participant appears at most once in the round
    (never in two pairings, never in a pairing and as the bye player).  A
    participant other than "BYE" appears exactly once, in one pairing or
    as the bye player, in every round whose loop does not read it opposite
    a "BYE"; and in a round that does, when its name is not the empty
    string and the list has an even length or no "BYE" of its own.  A
    participant whose name is the empty string does not appear in the
    round where it is read opposite a "BYE". *)
Theorem appears_once_per_round (players : list string) :
  NoDup players -> 2 <= length players ->
  exists rounds byes,
    call players = Some (rounds, byes) /\
    forall k p, k < length rounds -> In p players ->
      let sits_out :=
        paired_with_bye (Nat.iter k rotate (working_list players)) p in
      let appears := appearances p (nth k rounds []) (nth k byes "") in
      appears <= 1 /\
      (p <> BYE -> ~ sits_out -> appears = 1) /\
      (p <> BYE -> p <> "" -> sits_out ->
       length players mod 2 = 0 \/ ~ In BYE players -> appears = 1) /\
      (p = "" -> sits_out -> appears = 0).
Proof.
  intros Hnd HN.
  set (wl := working_list players).
  destruct (working_list_shape players HN) as (h & Hlen & _). fold wl in Hlen.
  exists (rounds_of wl), (byes_of wl).
  past_guard call_eq.
  split; [reflexivity|].
  intros k p Hk Hp. rewrite rounds_of_length in Hk.
  rewrite nth_rounds_of, nth_byes_of by assumption.
  unfold paired_with_bye. cbv zeta.
  pose proof (proj1 (NoDup_count_occ string_dec players) Hnd) as Hle.
  assert (Hocc : forall x, occurrences x (index_pairs (Nat.iter k rotate wl))
                           = count_occ string_dec wl x)
    by (intros x; apply (occurrences_round x wl (S h)); lia).
  assert (Hcount : forall x, x <> BYE ->
                     count_occ string_dec wl x = count_occ string_dec players x).
  { intros x Hx. unfold wl. rewrite count_working_list.
    destruct (_ =? 1); [|lia]. destruct (string_dec BYE x); [congruence|lia]. }
  assert (Hone : p <> BYE ->
                 occurrences p (index_pairs (Nat.iter k rotate wl)) = 1).
  { intros Hne. rewrite Hocc, Hcount by assumption.
    now apply (proj1 (NoDup_count_occ' string_dec players) Hnd). }
  split; [|split; [|split]].
  - destruct (string_dec p BYE) as [->|Hne].
    + rewrite appearances_BYE. lia.
    + etransitivity; [now apply appearances_le|].
      rewrite Hocc, Hcount by assumption. apply Hle.
  - intros Hne Hno.
    rewrite appearances_paired by tauto. now apply Hone.
  - intros Hne Hempty Hsits Hlist.
    assert (Hbyes : occurrences BYE (index_pairs (Nat.iter k rotate wl)) <= 1).
    { rewrite Hocc. unfold wl. rewrite count_working_list.
      destruct Hlist as [Heven|Hbye].
      - rewrite Heven. cbn [Nat.eqb]. specialize (Hle BYE). lia.
      - rewrite (proj1 (count_occ_not_In string_dec players BYE) Hbye).
        destruct (_ =? 1); [|lia]. destruct (string_dec BYE BYE); lia. }
    rewrite appearances_sitting_out by (try apply Hone; tauto).
    destruct (String.eqb_spec p ""); [contradiction|reflexivity].
  - intros -> Hsits. unfold appearances.
    rewrite occurrences_sitting_out
      by (try apply Hone; first [discriminate|tauto]).
    unfold bye_count, has_bye.
    destruct (String.eqb_spec
                (bye_entry (last_bye (index_pairs (Nat.iter k rotate wl)) None))
                ""); reflexivity.
Qed.

Lemma appears_once_per_round_witness :
  exists rounds byes,
    call [""; "Alice"; "Bob"] = Some (rounds, byes) /\
    forall k p, k < length rounds -> In p [""; "Alice"; "Bob"] ->
      let sits_out :=
        paired_with_bye (Nat.iter k rotate (working_list [""; "Alice"; "Bob"])) p in
      let appears := appearances p (nth k rounds []) (nth k byes "") in
      appears <= 1 /\
      (p <> BYE -> ~ sits_out -> appears = 1) /\
      (p <> BYE -> p <> "" -> sits_out ->
       length [""; "Alice"; "Bob"] mod 2 = 0 \/ ~ In BYE [""; "Alice"; "Bob"] ->
       appears = 1) /\
      (p = "" -> sits_out -> appears = 0).
Proof.
  apply appears_once_per_round.
  - distinct_names.
  - cbn. lia.
Defined.

(** C3, as stated, fails in both halves: two participants one of whom is
    called "BYE" get a bye although [N] is even, and with an odd [N] a
    participant whose name is the empty string leaves a round without any
    bye player. *)
Lemma byes_follow_parity_fails :
  (NoDup ["Alice"; "BYE"] /\ 2 <= length ["Alice"; "BYE"] /\
   ~ bye_parity ["Alice"; "BYE"]) /\
  (NoDup [""; "Alice"; "Bob"] /\ 2 <= length [""; "Alice"; "Bob"] /\
   ~ bye_parity [""; "Alice"; "Bob"]).
Proof.
  split; (split; [|split; [cbn; lia|]]).
  - distinct_names.
  - intros (rounds & byes & Hcall & _ & Heven & _).
    vm_compute in Hcall. injection Hcall as <- <-.
    specialize (Heven eq_refl 0 ltac:(cbn; lia)). discriminate.
  - distinct_names.
  - intros (rounds & byes & Hcall & _ & _ & Hodd).
    vm_compute in Hcall. injection Hcall as <- <-.
    destruct (Hodd eq_refl) as [Hevery _].
    specialize (Hevery 0 ltac:(cbn; lia)). discriminate.
Qed.

(** C3 (amended): for every list of [N >= 2] unique participants, none of
    them the string "BYE": if [N] is even every entry of [byes_per_round]
    is empty; if [N] is odd and no participant is the empty string, every
    round has a bye player and every participant is the bye player of at
    least one round. *)
Theorem byes_follow_parity (players : list string) :
  NoDup players -> 2 <= length players -> ~ In BYE players ->
  exists rounds byes,
    call players = Some (rounds, byes) /\
    length byes = length rounds /\
    (length players mod 2 = 0 -> forall k, k < length rounds -> nth k byes "" = "") /\
    (length players mod 2 = 1 -> ~ In "" players ->
     (forall k, k < length rounds -> has_bye (nth k byes "") = true) /\
     (forall p, In p players ->
                exists k, k < length rounds /\ nth k byes "" = p
                          /\ has_bye (nth k byes "") = true)).
Proof.
  intros Hnd HN Hbye.
  set (wl := working_list players).
  destruct (working_list_shape players HN) as (h & Hlen & HNh). fold wl in Hlen.
  exists (rounds_of wl), (byes_of wl).
  past_guard call_eq.
  rewrite rounds_of_length, byes_of_length.
  split; [reflexivity|]. split; [reflexivity|].
  assert (Hocc : forall k x, occurrences x (index_pairs (Nat.iter k rotate wl))
                             = count_occ string_dec wl x)
    by (intros k x; apply (occurrences_round x wl (S h)); lia).
  pose proof (count_working_list BYE players) as Hc. fold wl in Hc.
  rewrite (proj1 (count_occ_not_In string_dec players BYE) Hbye) in Hc.
  split.
  - intros Heven k Hk. rewrite nth_byes_of by assumption.
    rewrite Heven in Hc. cbn in Hc.
    rewrite last_bye_clean by (now rewrite Hocc). reflexivity.
  - intros Hodd Hempty.
    rewrite Hodd in Hc, HNh. cbn [Nat.eqb] in Hc, HNh.
    destruct (string_dec BYE BYE) as [_|]; [|contradiction].
    assert (Hreal : forall x, In x players -> x <> "" /\ x <> BYE)
      by (intros x Hx; split; intros ->; contradiction).
    assert (Hentry : forall x, In x players ->
                       bye_entry (Some x) = x /\ has_bye x = true).
    { intros x [Hx0 _]%Hreal. unfold bye_entry, has_bye.
      destruct (String.eqb_spec x ""); [contradiction|now split]. }
    assert (Hwl : forall x, In x wl -> x = BYE \/ In x players).
    { unfold wl, working_list. rewrite Hodd. cbn [Nat.eqb].
      intros x [Hx|[<-|[]]]%in_app_iff; tauto. }
    split.
    + intros k Hk. rewrite nth_byes_of by assumption.
      destruct (bye_has_opponent (index_pairs (Nat.iter k rotate wl)))
        as [x Hx]; [rewrite Hocc; lia|].
      rewrite (last_bye_at _ x) by (rewrite ?Hocc; (lia || assumption)).
      assert (Hxp : In x players).
      { pose proof (last_bye_at _ x ltac:(rewrite Hocc; lia) Hx) as E.
        apply last_bye_inv in E as [Hne _].
        assert (Hin : In x wl).
        { apply (count_occ_In string_dec). rewrite <- (Hocc k).
          destruct Hx as [Hx|Hx]; apply occurrences_In_l in Hx; lia. }
        destruct (Hwl x Hin); [contradiction|assumption]. }
      destruct (Hentry x Hxp) as [-> E]. exact E.
    + intros p Hp. apply (In_nth _ _ "") in Hp as Hq. destruct Hq as (q & Hq & Eq).
      destruct (origin_meets h q (2 * h + 1)) as (k & i & Hk & Hi & Hslot); try lia.
      exists k. split; [lia|].
      rewrite nth_byes_of by lia.
      assert (Hlast : nth (2 * h + 1) wl "" = BYE).
      { unfold wl, working_list. rewrite Hodd. cbn [Nat.eqb].
        rewrite app_nth2 by lia.
        replace (2 * h + 1 - length players) with 0 by lia. reflexivity. }
      assert (Hq' : nth q wl "" = p)
        by (unfold wl; now rewrite nth_working_list).
      rewrite (last_bye_at _ p).
      * destruct (Hentry p Hp) as [-> E]. now split.
      * rewrite Hocc. lia.
      * rewrite (index_pairs_round wl h k Hlen) by lia.
        destruct Hslot as [[E1 E2]|[E1 E2]]; [left|right];
          apply in_map_iff; exists i; unfold players_at; cbn [fst snd];
          rewrite E1, E2, Hlast, Hq'; (split; [reflexivity|apply in_seq; lia]).
Qed.

Lemma byes_follow_parity_witness :
  exists rounds byes,
    call ["Alice"; "Bob"; "Charlie"] = Some (rounds, byes) /\
    length byes = length rounds /\
    (length ["Alice"; "Bob"; "Charlie"] mod 2 = 0 ->
     forall k, k < length rounds -> nth k byes "" = "") /\
    (length ["Alice"; "Bob"; "Charlie"] mod 2 = 1 ->
     ~ In "" ["Alice"; "Bob"; "Charlie"] ->
     (forall k, k < length rounds -> has_bye (nth k byes "") = true) /\
     (forall p, In p ["Alice"; "Bob"; "Charlie"] ->
                exists k, k < length rounds /\ nth k byes "" = p
                          /\ has_bye (nth k byes "") = true)).
Proof.
  apply byes_follow_parity.
  - distinct_names.
  - cbn. lia.
  - distinct_names.
Defined.

(** C4: for every list of [N >= 2] unique participants the schedule has
    [N - 1] rounds when [N] is even and [N] rounds when [N] is odd. *)
Theorem round_count_by_parity (players : list string) :
  NoDup players -> 2 <= length players ->
  exists rounds byes,
    call players = Some (rounds, byes) /\
    length rounds = if length players mod 2 =? 0
                    then length players - 1
                    else length players.
Proof.
  intros _ HN.
  exists (rounds_of (working_list players)), (byes_of (working_list players)).
  past_guard call_eq.
  split; [reflexivity|].
  rewrite rounds_of_length, working_list_length.
  pose proof (Nat.mod_upper_bound (length players) 2 ltac:(lia)).
  destruct (Nat.eqb_spec (length players mod 2) 1),
           (Nat.eqb_spec (length players mod 2) 0); lia.
Qed.

Lemma round_count_by_parity_witness :
  exists rounds byes,
    call ["Alice"; "Bob"; "Charlie"] = Some (rounds, byes) /\
    length rounds = 3.
Proof.
  apply (round_count_by_parity ["Alice"; "Bob"; "Charlie"]).
  - distinct_names.
  - cbn. lia.
Defined.

(** ** The circle method, as the specification words it *)

Lemma circle_rotate_eq (l : list string) :
  2 <= length l -> circle_rotate l = rotate l.
Proof.
  destruct l as [|a [|b t]]; cbn [length]; try lia. reflexivity.
Qed.

Lemma circle_list_eq (k : nat) (wl : list string) :
  2 <= length wl -> circle_list k wl = Nat.iter k rotate wl.
Proof.
  intros Hlen. induction k as [|k IH]; [reflexivity|].
  cbn [circle_list]. rewrite IH.
  now rewrite circle_rotate_eq by (now rewrite iter_rotate_length).
Qed.

(** C5: a call that reaches the loop, which is every call on two
    participants or more, follows the circle method.  With [M] the (even)
    length of the working list, it runs [M - 1] iterations, each of which
    creates two list objects, the pairings of its round and the next
    working list; the pairings of iteration [k] are those of positions [i]
    and [M - 1 - i] of the current working list, in the order of [i]; and
    the next working list is [[fixed] + old[2:] + [old[1]]], which keeps
    position 0, sends old position 1 to the end and moves the others one
    place to the front.  Below two participants line 50 returns before a
    working list exists, and the call creates the two empty result lists
    only. *)
Theorem follows_circle_method (s : store) (p : loc) (players : list string) :
  nth_error s p = Some (Strs players) ->
  exists r s' rounds byes,
    generate_round_robin p s = Some (r, s') /\
    read_schedule s' r = Some (rounds, byes) /\
    (length players < 2 ->
     rounds = [] /\ byes = [] /\ s' = s ++ [Refs []; Strs []]) /\
    (2 <= length players ->
     let wl := working_list players in
     let M := length wl in
     M mod 2 = 0 /\
     length rounds = M - 1 /\ length byes = M - 1 /\
     length s' = S (snd r) + 2 * (M - 1) /\
     (forall k, k < M - 1 ->
        nth k rounds [] = circle_round (circle_list k wl) /\
        nth_error s' (S (snd r) + 2 * k)
        = Some (Pairs (circle_round (circle_list k wl))) /\
        nth_error s' (S (snd r) + 2 * k + 1)
        = Some (Strs (circle_list (S k) wl))) /\
     (forall k j, j < M ->
        length (circle_list k wl) = M /\
        nth j (circle_list (S k) wl) ""
        = if j =? 0 then nth 0 (circle_list k wl) ""
          else if j =? M - 1 then nth 1 (circle_list k wl) ""
          else nth (j + 1) (circle_list k wl) "")).
Proof.
  intros Hp.
  exists (result_locs s players), (final_store s players),
         (fst (schedule_of players)), (snd (schedule_of players)).
  split; [now apply generate_round_robin_run|].
  split; [rewrite read_final_store; now destruct (schedule_of players)|].
  unfold schedule_of, result_locs, final_store, rounds_loc. cbn [snd].
  destruct (Nat.ltb_spec (length players) 2) as [Hlt|HN].
  { split; [now repeat split|lia]. }
  split; [lia|]. intros _. cbn [fst snd].
  set (wl := working_list players). set (M := length wl).
  destruct (working_list_shape players HN) as (h & Hlen & _).
  fold wl in Hlen. fold M in Hlen.
  assert (HM : 2 <= length wl) by (fold M; lia).
  split.
  { rewrite Hlen. replace (2 * h + 2) with (S h * 2) by lia. apply Nat.Div0.mod_mul. }
  rewrite rounds_of_length, byes_of_length. fold M.
  split; [reflexivity|]. split; [reflexivity|].
  set (base := s ++ (if length players mod 2 =? 1 then [Strs wl] else [])).
  replace (length s + (if length players mod 2 =? 1 then 1 else 0))
    with (length base)
    by (unfold base; rewrite length_app; now destruct (_ =? 1)).
  repeat split.
  - rewrite !length_app, round_objects_length. cbn [length]. lia.
  - rewrite nth_rounds_of by assumption.
    rewrite circle_list_eq by assumption. reflexivity.
  - rewrite app_assoc, nth_error_app2 by (rewrite length_app; cbn [length]; lia).
    rewrite length_app. cbn [length].
    replace (S (S (length base)) + 2 * k - (length base + 2)) with (2 * k) by lia.
    rewrite (proj1 (nth_error_round_objects wl (M - 1) k ltac:(assumption))).
    rewrite circle_list_eq by assumption. reflexivity.
  - rewrite app_assoc, nth_error_app2 by (rewrite length_app; cbn [length]; lia).
    rewrite length_app. cbn [length].
    replace (S (S (length base)) + 2 * k + 1 - (length base + 2)) with (2 * k + 1) by lia.
    rewrite (proj2 (nth_error_round_objects wl (M - 1) k ltac:(assumption))).
    rewrite circle_list_eq by assumption. reflexivity.
  - rewrite circle_list_eq by assumption. apply iter_rotate_length.
  - rewrite !circle_list_eq by assumption.
    change (Nat.iter (S k) rotate wl) with (rotate (Nat.iter k rotate wl)).
    rewrite (nth_rotate _ (M - 1)); rewrite ?iter_rotate_length; fold M; try lia.
    destruct (j =? 0); [reflexivity|]. now destruct (j =? M - 1).
Qed.

Lemma follows_circle_method_witness :
  exists (r : loc * loc) (rounds : list round) (byes : list string),
    generate_round_robin 0 [Strs ["Alice"; "Bob"; "Charlie"]]
    = Some (r,
            [Strs ["Alice"; "Bob"; "Charlie"];
             Strs ["Alice"; "Bob"; "Charlie"; "BYE"];
             Refs [4; 6; 8];
             Strs ["Alice"; "Charlie"; "Bob"];
             Pairs [("Bob", "Charlie")];
             Strs ["Alice"; "Charlie"; "BYE"; "Bob"];
             Pairs [("Alice", "Bob")];
             Strs ["Alice"; "BYE"; "Bob"; "Charlie"];
             Pairs [("Alice", "Charlie")];
             Strs ["Alice"; "Bob"; "Charlie"; "BYE"]]) /\
    length rounds = 3 /\ length byes = 3.
Proof.
  destruct (follows_circle_method [Strs ["Alice"; "Bob"; "Charlie"]] 0
              ["Alice"; "Bob"; "Charlie"] eq_refl)
    as (r & s' & rounds & byes & Hrun & _ & _ & Hloop).
  destruct (Hloop ltac:(cbn; lia)) as (_ & Hr & Hb & _).
  exists r, rounds, byes. split; [|split; [exact Hr|exact Hb]].
  rewrite Hrun. vm_compute in Hrun. injection Hrun as _ <-. reflexivity.
Defined.

(** C6: the function is total.  Called on any list object it returns a
    schedule and raises nothing (every [players_list[...]] of the model is
    a [getitem] that raises out of range); on a list of 0 or 1
    participants the schedule returned is the empty one. *)
Theorem never_raises (s : store) (p : loc) (players : list string) :
  nth_error s p = Some (Strs players) ->
  exists rounds byes,
    run s p = Some (rounds, byes) /\
    (length players < 2 -> rounds = [] /\ byes = []).
Proof.
  intros Hp. rewrite (run_eq s p players Hp). unfold schedule_of.
  destruct (Nat.ltb_spec (length players) 2) as [Hlt|Hge].
  - exists [], []. now repeat split.
  - eexists _, _. split; [reflexivity|]. lia.
Qed.

Lemma never_raises_witness :
  exists rounds byes,
    run [Strs ["Solo"]] 0 = Some (rounds, byes) /\
    (length ["Solo"] < 2 -> rounds = [] /\ byes = []).
Proof. apply (never_raises [Strs ["Solo"]] 0 ["Solo"]). reflexivity. Defined.

(** C7, as stated, has the second and third rounds the wrong way round:
    the second round returned is Alice-Bob, Charlie-David, and Alice does
    not meet Charlie in it. *)
Lemma scenario_four_second_round :
  exists rounds byes,
    call ["Alice"; "Bob"; "Charlie"; "David"] = Some (rounds, byes) /\
    nth 1 rounds [] = [("Alice", "Bob"); ("Charlie", "David")] /\
    meetings "Alice" "Charlie" [nth 1 rounds []] = 0 /\
    rounds <> [[("Alice", "David"); ("Bob", "Charlie")];
               [("Alice", "Charlie"); ("David", "Bob")];
               [("Alice", "Bob"); ("Charlie", "David")]].
Proof.
  eexists _, _. split; [reflexivity|].
  split; [reflexivity|]. split; [reflexivity|]. discriminate.
Qed.

(** C7 (amended): on Alice, Bob, Charlie, David the function returns 3
    rounds of 2 pairings, without byes, 6 pairings in all, each pair
    once: Alice-David and Bob-Charlie, then Alice-Bob and Charlie-David,
    then Alice-Charlie and David-Bob. *)
Theorem scenario_four_players :
  call ["Alice"; "Bob"; "Charlie"; "David"]
  = Some ([[("Alice", "David"); ("Bob", "Charlie")];
           [("Alice", "Bob"); ("Charlie", "David")];
           [("Alice", "Charlie"); ("David", "Bob")]],
          [""; ""; ""])
  /\ complete ["Alice"; "Bob"; "Charlie"; "David"].
Proof.
  split; [reflexivity|].
  unfold complete. eexists _, _. split; [reflexivity|].
  split; [|reflexivity].
  intros a b Ha Hb Hab. cbn [In] in Ha, Hb.
  destruct Ha as [<-|[<-|[<-|[<-|[]]]]], Hb as [<-|[<-|[<-|[<-|[]]]]];
    solve [reflexivity | now contradiction Hab].
Qed.

(** C8: the schedule is a function of the list alone.  Two calls on lists
    with the same elements in the same order return the same rounds and the
    same [byes_per_round], wherever the lists are held and whatever else
    the store holds, for instance what an earlier call left there. *)
Theorem same_list_same_schedule (s1 s2 : store) (p1 p2 : loc) (players : list string) :
  nth_error s1 p1 = Some (Strs players) ->
  nth_error s2 p2 = Some (Strs players) ->
  exists r, run s1 p1 = Some r /\ run s2 p2 = Some r.
Proof.
  intros H1 H2. exists (schedule_of players).
  now rewrite (run_eq s1 p1 players H1), (run_eq s2 p2 players H2).
Qed.

(** A call on a list alone in the store and a call on an equal list held
    elsewhere among other objects. *)
Lemma same_list_same_schedule_witness :
  exists r,
    run [Strs ["Alice"; "Bob"; "Charlie"]] 0 = Some r /\
    run [Strs ["Dora"]; Refs [0]; Strs ["Alice"; "Bob"; "Charlie"]; Pairs []] 2
    = Some r.
Proof.
  apply (same_list_same_schedule _ _ 0 2 ["Alice"; "Bob"; "Charlie"]); reflexivity.
Defined.

(** C9, as stated, fails when the working list holds "BYE" twice.  With
    an odd length the appended placeholder is the second one: in the third
    round of Alice, BYE, Charlie the two sit opposite each other and the
    entry is empty.  With "BYE" twice in the list the same happens at once. *)
Lemma bye_name_fails :
  (2 <= length ["Alice"; "BYE"; "Charlie"] /\ In BYE ["Alice"; "BYE"; "Charlie"] /\
   ~ placeholder_treatment ["Alice"; "BYE"; "Charlie"]) /\
  (2 <= length ["BYE"; "BYE"] /\ In BYE ["BYE"; "BYE"] /\
   ~ placeholder_treatment ["BYE"; "BYE"]).
Proof.
  split; (split; [cbn; lia|]; split; [cbn; tauto|]).
  - intros (rounds & byes & Hcall & _ & Hopp).
    vm_compute in Hcall. injection Hcall as <- <-.
    destruct (Hopp 2 ltac:(cbn; lia)) as (opp & Hpaired & E).
    cbn in E. subst opp.
    destruct Hpaired as [[H|[H|[]]]|[H|[H|[]]]]; discriminate H.
  - intros (rounds & byes & Hcall & _ & Hopp).
    vm_compute in Hcall. injection Hcall as <- <-.
    destruct (Hopp 0 ltac:(cbn; lia)) as (opp & Hpaired & E).
    cbn in E. subst opp.
    destruct Hpaired as [[H|[]]|[H|[]]]; discriminate H.
Qed.

(** C9 (amended): for every list of at least 2 entries that contains
    "BYE", no pairing of any round returned contains "BYE"; and when the
    list has an even length and contains "BYE" once, in every round the
    player opposite "BYE" is the entry of [byes_per_round]. *)
Theorem bye_name_is_placeholder (players : list string) :
  2 <= length players -> In BYE players ->
  exists rounds byes,
    call players = Some (rounds, byes) /\
    (forall r pr, In r rounds -> In pr r -> fst pr <> BYE /\ snd pr <> BYE) /\
    (length players mod 2 = 0 -> count_occ string_dec players BYE = 1 ->
     forall k, k < length rounds ->
       exists opp,
         paired_with_bye (Nat.iter k rotate (working_list players)) opp /\
         nth k byes "" = opp).
Proof.
  intros HN _.
  set (wl := working_list players).
  destruct (working_list_shape players HN) as (h & Hlen & _). fold wl in Hlen.
  exists (rounds_of wl), (byes_of wl).
  past_guard call_eq.
  split; [reflexivity|]. split.
  - intros r [x y] Hr Hpr. rewrite rounds_of_eq in Hr.
    apply in_map_iff in Hr as (k & <- & _).
    apply filter_In in Hpr as [_ Hreal]. now apply real_pair_true in Hreal.
  - intros Heven Hone k Hk. rewrite rounds_of_length in Hk.
    assert (Hocc : occurrences BYE (index_pairs (Nat.iter k rotate wl)) = 1).
    { rewrite (occurrences_round BYE wl (S h)) by lia.
      unfold wl. rewrite count_working_list, Heven. cbn [Nat.eqb]. lia. }
    destruct (bye_has_opponent (index_pairs (Nat.iter k rotate wl)))
      as [x Hx]; [lia|].
    exists x. split; [unfold paired_with_bye; tauto|].
    rewrite nth_byes_of by assumption.
    rewrite (last_bye_at _ x) by (assumption || lia).
    unfold bye_entry. now destruct (String.eqb_spec x "").
Qed.

Lemma bye_name_is_placeholder_witness : placeholder_treatment ["BYE"; "Alice"].
Proof.
  destruct (bye_name_is_placeholder ["BYE"; "Alice"])
    as (rounds & byes & Hcall & Hpairs & Hopp).
  - cbn. lia.
  - cbn. tauto.
  - exists rounds, byes. split; [exact Hcall|]. split; [exact Hpairs|].
    apply Hopp; reflexivity.
Defined.

(** C10: the call does not modify its argument.  The list object passed
    holds the same elements in the same order afterwards, as does every
    other object that was there: the objects the call appends to are
    objects it has created. *)
Theorem argument_unchanged (s : store) (p : loc) (players : list string) :
  nth_error s p = Some (Strs players) ->
  exists r s',
    generate_round_robin p s = Some (r, s') /\
    nth_error s' p = Some (Strs players) /\
    (forall l o, nth_error s l = Some o -> nth_error s' l = Some o).
Proof.
  intros Hp. rewrite (generate_round_robin_run s p players Hp).
  eexists _, _. split; [reflexivity|].
  assert (Hframe : forall l o, nth_error s l = Some o ->
                               nth_error (final_store s players) l = Some o).
  { intros l o Hl. unfold final_store.
    destruct (length players <? 2); [now apply nth_error_front|].
    rewrite <- app_assoc. now apply nth_error_front. }
  split; [now apply Hframe|exact Hframe].
Qed.

(** The even branch, where [players_list] starts as an alias of the
    argument. *)
Lemma argument_unchanged_witness :
  exists r s',
    generate_round_robin 0 [Strs ["Alice"; "Bob"]] = Some (r, s') /\
    nth_error s' 0 = Some (Strs ["Alice"; "Bob"]) /\
    (forall l o, nth_error [Strs ["Alice"; "Bob"]] l = Some o ->
                 nth_error s' l = Some o).
Proof.
  apply (argument_unchanged [Strs ["Alice"; "Bob"]] 0 ["Alice"; "Bob"]).
  reflexivity.
Defined.

(** * Further properties of the scheduler *)

Lemma in_working_list (players : list string) (x : string) :
  In x (working_list players) -> x = BYE \/ In x players.
Proof.
  unfold working_list. destruct (_ =? 1); [|tauto].
  intros [H|[<-|[]]]%in_app_iff; tauto.
Qed.

(** The two players of a pair the inner loop reads in round [k] come from
    the working list. *)
Lemma in_round_pairs (wl : list string) (h k : nat) (x y : string) :
  length wl = 2 * h -> In (x, y) (index_pairs (Nat.iter k rotate wl)) ->
  In x wl /\ In y wl.
Proof.
  intros Hlen Hin.
  assert (Hperm : Permutation (members (index_pairs (Nat.iter k rotate wl))) wl).
  { rewrite (members_index_pairs _ h) by (now rewrite iter_rotate_length).
    apply iter_rotate_perm. }
  split; apply (Permutation_in _ Hperm); unfold members; apply in_app_iff.
  - left. now apply (in_map fst) in Hin.
  - right. now apply (in_map snd) in Hin.
Qed.

Lemma occurrences_twice (x : string) (ps : list pairing) :
  In (x, x) ps -> 2 <= occurrences x ps.
Proof.
  intros (l1 & l2 & ->)%in_split.
  change ((x, x) :: l2) with ([(x, x)] ++ l2).
  rewrite !occurrences_app, occurrences_one.
  destruct (string_dec x x); [lia|contradiction].
Qed.

Lemma filter_real_clean (ps : list pairing) :
  occurrences BYE ps = 0 -> filter real_pair ps = ps.
Proof.
  induction ps as [|[x y] ps IH]; [reflexivity|].
  rewrite occurrences_cons. intros H. cbn [filter].
  destruct (pair_cases x y) as [(Hx & Hy & -> & _)|[(Hx & Hy & -> & _)|
                               [(Hx & Hy & -> & _)|(Hx & Hy & -> & _)]]];
    destruct (string_dec x BYE), (string_dec y BYE); try contradiction; try lia.
  f_equal. apply IH. lia.
Qed.

Lemma in_rounds_of (wl : list string) (r : round) :
  In r (rounds_of wl) <-> exists k, k < length wl - 1 /\ r = round_of wl k.
Proof.
  unfold rounds_of. rewrite in_map_iff. split.
  - intros (k & <- & Hk%in_seq). exists k. split; [lia|reflexivity].
  - intros (k & Hk & ->). exists k. split; [reflexivity|apply in_seq; lia].
Qed.

Lemma in_byes_of (wl : list string) (e : string) :
  In e (byes_of wl) <-> exists k, k < length wl - 1 /\ e = bye_of wl k.
Proof.
  unfold byes_of. rewrite in_map_iff. split.
  - intros (k & <- & Hk%in_seq). exists k. split; [lia|reflexivity].
  - intros (k & Hk & ->). exists k. split; [reflexivity|apply in_seq; lia].
Qed.

(** X1: the two members of a pairing are two different participants of
    the list: nobody meets themselves, and no name is made up. *)
Theorem pairings_join_participants (players : list string) :
  NoDup players -> 2 <= length players ->
  exists rounds byes,
    call players = Some (rounds, byes) /\
    forall r x y, In r rounds -> In (x, y) r ->
                  x <> y /\ In x players /\ In y players.
Proof.
  intros Hnd HN.
  set (wl := working_list players).
  destruct (working_list_shape players HN) as (h & Hlen & _). fold wl in Hlen.
  exists (rounds_of wl), (byes_of wl). past_guard call_eq.
  split; [reflexivity|].
  intros r x y (k & Hk & ->)%in_rounds_of Hin.
  apply filter_In in Hin as [Hin [Hx Hy]%real_pair_true].
  destruct (in_round_pairs wl (S h) k x y ltac:(lia) Hin) as [Hxw Hyw].
  apply in_working_list in Hxw as [|Hxp]; [contradiction|].
  apply in_working_list in Hyw as [|Hyp]; [contradiction|].
  repeat split; try assumption.
  intros <-. apply occurrences_twice in Hin.
  rewrite (occurrences_round x wl (S h)) in Hin by lia.
  unfold wl in Hin. rewrite count_working_list in Hin.
  pose proof (proj1 (NoDup_count_occ string_dec players) Hnd x).
  destruct (_ =? 1); [|lia]. destruct (string_dec BYE x); [congruence|lia].
Qed.

Lemma pairings_join_participants_witness :
  exists rounds byes,
    call ["Alice"; "Bob"; "Charlie"] = Some (rounds, byes) /\
    forall r x y, In r rounds -> In (x, y) r ->
                  x <> y /\ In x ["Alice"; "Bob"; "Charlie"]
                  /\ In y ["Alice"; "Bob"; "Charlie"].
Proof.
  apply pairings_join_participants; [distinct_names|cbn; lia].
Defined.

(** X2: an entry of [byes_per_round] is empty or names a participant of
    the list, and it is never the placeholder. *)
Theorem byes_are_participants (players : list string) :
  2 <= length players ->
  exists rounds byes,
    call players = Some (rounds, byes) /\
    forall e, In e byes -> e = "" \/ (In e players /\ e <> BYE).
Proof.
  intros HN.
  set (wl := working_list players).
  destruct (working_list_shape players HN) as (h & Hlen & _). fold wl in Hlen.
  exists (rounds_of wl), (byes_of wl). past_guard call_eq.
  split; [reflexivity|].
  intros e (k & Hk & ->)%in_byes_of. unfold bye_of.
  destruct (last_bye _ None) as [x|] eqn:E; [|now left].
  apply last_bye_inv in E as [Hx Hin].
  unfold bye_entry. destruct (String.eqb_spec x ""); [now left|right].
  split; [|assumption].
  assert (Hxw : In x wl)
    by (destruct Hin as [Hin|Hin];
        apply (in_round_pairs wl (S h)) in Hin; (lia || tauto)).
  apply in_working_list in Hxw as [|]; [contradiction|assumption].
Qed.

Lemma byes_are_participants_witness :
  exists rounds byes,
    call ["Alice"; "BYE"; "Charlie"] = Some (rounds, byes) /\
    forall e, In e byes ->
              e = "" \/ (In e ["Alice"; "BYE"; "Charlie"] /\ e <> BYE).
Proof. apply byes_are_participants. cbn. lia. Defined.

(** X3: without a participant called "BYE", every round has [N // 2]
    pairings. *)
Theorem pairings_per_round (players : list string) :
  2 <= length players -> ~ In BYE players ->
  exists rounds byes,
    call players = Some (rounds, byes) /\
    forall r, In r rounds -> length r = length players / 2.
Proof.
  intros HN Hbye.
  set (wl := working_list players).
  destruct (working_list_shape players HN) as (h & Hlen & HNh). fold wl in Hlen.
  exists (rounds_of wl), (byes_of wl). past_guard call_eq.
  split; [reflexivity|].
  intros r (k & Hk & ->)%in_rounds_of. unfold round_of.
  assert (Hc : count_occ string_dec wl BYE
               = if length players mod 2 =? 1 then 1 else 0).
  { unfold wl. rewrite count_working_list.
    rewrite (proj1 (count_occ_not_In string_dec players BYE) Hbye).
    destruct (_ =? 1); [|reflexivity].
    destruct (string_dec BYE BYE); [reflexivity|contradiction]. }
  rewrite (round_size wl h k Hlen) by (rewrite Hc; destruct (_ =? 1); lia).
  rewrite Hc. symmetry.
  destruct (length players mod 2 =? 1); rewrite HNh.
  - replace (2 * h + 2 - 1) with (1 + h * 2) by lia.
    rewrite Nat.div_add by lia. cbn. lia.
  - replace (2 * h + 2 - 0) with (S h * 2) by lia.
    rewrite Nat.div_mul by lia. lia.
Qed.

Lemma pairings_per_round_witness :
  exists rounds byes,
    call ["Alice"; "Bob"; "Charlie"] = Some (rounds, byes) /\
    forall r, In r rounds -> length r = 1.
Proof.
  apply (pairings_per_round ["Alice"; "Bob"; "Charlie"]);
    [cbn; lia|distinct_names].
Defined.

(** With an odd number of participants, none called "BYE", the one at
    position [q] sits opposite the placeholder in some round and is its
    bye player. *)
Lemma everyone_sits_out (players : list string) (h q : nat) :
  length players = 2 * h + 1 -> ~ In BYE players -> q < length players ->
  exists k, k < 2 * h + 1 /\
    last_bye (index_pairs (Nat.iter k rotate (players ++ [BYE]))) None
    = Some (nth q players "").
Proof.
  intros HN Hbye Hq. set (wl := players ++ [BYE]).
  assert (Hlen : length wl = 2 * h + 2)
    by (unfold wl; rewrite length_app; cbn; lia).
  destruct (origin_meets h q (2 * h + 1)) as (k & i & Hk & Hi & Hslot); try lia.
  exists k. split; [assumption|].
  assert (Hlast : nth (2 * h + 1) wl "" = BYE).
  { unfold wl. rewrite app_nth2 by lia.
    replace (2 * h + 1 - length players) with 0 by lia. reflexivity. }
  assert (Hq' : nth q wl "" = nth q players "")
    by (unfold wl; now apply app_nth1).
  apply last_bye_at.
  - rewrite (occurrences_round BYE wl (S h)) by lia.
    unfold wl. rewrite count_occ_app.
    rewrite (proj1 (count_occ_not_In string_dec players BYE) Hbye).
    cbn [count_occ]. destruct (string_dec BYE BYE); [lia|contradiction].
  - rewrite (index_pairs_round wl h k Hlen) by lia.
    destruct Hslot as [[E1 E2]|[E1 E2]]; [left|right];
      apply in_map_iff; exists i; unfold players_at; cbn [fst snd];
      rewrite E1, E2, Hlast, Hq'; (split; [reflexivity|apply in_seq; lia]).
Qed.

(** X4: with an odd number of unique participants, none of them called
    "BYE" or "", [byes_per_round] holds every participant exactly once:
    each has one bye over the schedule. *)
Theorem one_bye_each (players : list string) :
  NoDup players -> 2 <= length players -> length players mod 2 = 1 ->
  ~ In BYE players -> ~ In "" players ->
  exists rounds byes,
    call players = Some (rounds, byes) /\ Permutation players byes.
Proof.
  intros Hnd HN Hodd Hbye Hempty.
  set (wl := working_list players).
  destruct (working_list_shape players HN) as (h & Hlen & HNh). fold wl in Hlen.
  rewrite Hodd in HNh. cbn [Nat.eqb] in HNh.
  assert (Ewl : wl = players ++ [BYE])
    by (unfold wl, working_list; now rewrite Hodd).
  exists (rounds_of wl), (byes_of wl). past_guard call_eq.
  split; [reflexivity|].
  apply NoDup_Permutation_bis; [assumption|rewrite byes_of_length; lia|].
  intros p Hp. apply (In_nth _ _ "") in Hp as Hq. destruct Hq as (q & Hq & Eq).
  destruct (everyone_sits_out players h q ltac:(lia) Hbye Hq) as (k & Hk & E).
  apply in_byes_of. exists k. split; [lia|].
  unfold bye_of. rewrite Ewl, E, Eq. unfold bye_entry.
  destruct (String.eqb_spec p "") as [->|]; [contradiction|reflexivity].
Qed.

Lemma one_bye_each_witness :
  exists rounds byes,
    call ["Alice"; "Bob"; "Charlie"] = Some (rounds, byes) /\
    Permutation ["Alice"; "Bob"; "Charlie"] byes.
Proof.
  apply one_bye_each;
    [distinct_names|cbn; lia|reflexivity|distinct_names|distinct_names].
Defined.

(** X5: with an even number of participants, none called "BYE", the first
    participant is the first member of the first pairing of every round,
    against the last participant in the first round and against the
    participant at position [k] in the round of index [k >= 1]. *)
Theorem first_player_stays_first (players : list string) :
  2 <= length players -> length players mod 2 = 0 -> ~ In BYE players ->
  exists rounds byes,
    call players = Some (rounds, byes) /\
    forall k, k < length rounds ->
      hd_error (nth k rounds [])
      = Some (nth 0 players "",
              nth (if k =? 0 then length players - 1 else k) players "").
Proof.
  intros HN Heven Hbye.
  set (wl := working_list players).
  destruct (working_list_shape players HN) as (h & Hlen & HNh). fold wl in Hlen.
  assert (Ewl : wl = players)
    by (unfold wl, working_list; now rewrite Heven).
  exists (rounds_of wl), (byes_of wl). past_guard call_eq.
  split; [reflexivity|].
  intros k Hk. rewrite rounds_of_length in Hk.
  rewrite nth_rounds_of by assumption.
  rewrite filter_real_clean.
  2:{ rewrite (occurrences_round BYE wl (S h)) by lia.
      rewrite Ewl. now apply count_occ_not_In. }
  rewrite (index_pairs_round wl h k Hlen) by lia.
  cbn [seq map hd_error]. unfold players_at, origin. cbn [fst snd Nat.eqb].
  rewrite Nat.sub_0_r, <- Ewl, Hlen. do 3 f_equal.
  destruct (Nat.eqb_spec (2 * h + 1) 0); [lia|].
  destruct (Nat.eqb_spec k 0), (Nat.ltb_spec (2 * h + 1 - 1 + k) (2 * h + 1)); lia.
Qed.

Lemma first_player_stays_first_witness :
  exists rounds byes,
    call ["Alice"; "Bob"; "Charlie"; "David"] = Some (rounds, byes) /\
    forall k, k < length rounds ->
      hd_error (nth k rounds [])
      = Some ("Alice", nth (if k =? 0 then 3 else k)
                           ["Alice"; "Bob"; "Charlie"; "David"] "").
Proof.
  apply (first_player_stays_first ["Alice"; "Bob"; "Charlie"; "David"]);
    [cbn; lia|reflexivity|distinct_names].
Defined.

(** After as many rotations as there are rounds the working list is back
    in its first order. *)
Lemma iter_rotate_period (wl : list string) :
  2 <= length wl -> Nat.iter (length wl - 1) rotate wl = wl.
Proof.
  intros Hlen. apply (nth_ext _ _ "" ""); [apply iter_rotate_length|].
  intros j Hj. rewrite iter_rotate_length in Hj.
  rewrite (nth_iter_rotate wl (length wl - 1)) by lia.
  f_equal. unfold origin.
  destruct (Nat.eqb_spec j 0); [lia|].
  destruct (Nat.ltb_spec (j - 1 + (length wl - 1)) (length wl - 1)); lia.
Qed.

(** X6: the rotation has period [M - 1]: the working list the call
    creates after its last round, the last object of the store it leaves,
    is the working list it started from. *)
Theorem rotation_returns (s : store) (p : loc) (players : list string) :
  nth_error s p = Some (Strs players) -> 2 <= length players ->
  exists r s',
    generate_round_robin p s = Some (r, s') /\
    nth_error s' (length s' - 1) = Some (Strs (working_list players)).
Proof.
  intros Hp HN. rewrite (generate_round_robin_run s p players Hp).
  eexists _, _. split; [reflexivity|].
  unfold final_store. destruct (Nat.ltb_spec (length players) 2) as [|_]; [lia|].
  set (wl := working_list players).
  destruct (working_list_shape players HN) as (h & Hlen & _). fold wl in Hlen.
  set (base := s ++ _).
  rewrite app_assoc.
  rewrite !length_app, round_objects_length. cbn [length].
  rewrite nth_error_app2 by (rewrite length_app; cbn [length]; lia).
  rewrite length_app. cbn [length].
  replace (length base + 2 + 2 * (length wl - 1) - 1 - (length base + 2))
    with (2 * (length wl - 2) + 1) by lia.
  rewrite (proj2 (nth_error_round_objects wl (length wl - 1) (length wl - 2)
                    ltac:(lia))).
  replace (S (length wl - 2)) with (length wl - 1) by lia.
  now rewrite iter_rotate_period by lia.
Qed.

Lemma rotation_returns_witness :
  exists r s',
    generate_round_robin 0 [Strs ["Alice"; "Bob"; "Charlie"]] = Some (r, s') /\
    nth_error s' (length s' - 1) = Some (Strs ["Alice"; "Bob"; "Charlie"; "BYE"]).
Proof.
  apply (rotation_returns [Strs ["Alice"; "Bob"; "Charlie"]] 0
           ["Alice"; "Bob"; "Charlie"]); [reflexivity|cbn; lia].
Defined.

Lemma round_locs_NoDup (n rounds : nat) : NoDup (round_locs n rounds).
Proof.
  unfold round_locs. apply Finite.Injective_map_NoDup; [|apply seq_NoDup].
  intros x y E. lia.
Qed.

(** X7: the lists returned are objects of their own.  [rounds],
    [byes_per_round] and the lists of pairings that [rounds] refers to are
    all created by the call and pairwise different, so none of them is the
    argument or another object of the caller, and no two rounds share
    their list. *)
Theorem results_are_new_objects (s : store) (p : loc) (players : list string) :
  nth_error s p = Some (Strs players) ->
  exists rounds byes_per_round s' round_lists,
    generate_round_robin p s = Some ((rounds, byes_per_round), s') /\
    nth_error s' rounds = Some (Refs round_lists) /\
    length s <= rounds /\ byes_per_round = S rounds /\
    NoDup round_lists /\
    forall l, In l round_lists -> byes_per_round < l < length s'.
Proof.
  intros Hp. rewrite (generate_round_robin_run s p players Hp).
  unfold result_locs, final_store, rounds_loc.
  destruct (Nat.ltb_spec (length players) 2) as [Hlt|HN].
  - exists (length s), (S (length s)), (s ++ [Refs []; Strs []]), [].
    rewrite nth_error_middle.
    repeat split; try lia;
      try (match goal with H : In _ [] |- _ => destruct H end);
      apply NoDup_nil.
  - set (wl := working_list players).
    set (base := s ++ (if length players mod 2 =? 1 then [Strs wl] else [])).
    assert (Hbase : length s + (if length players mod 2 =? 1 then 1 else 0)
                    = length base)
      by (unfold base; rewrite length_app; now destruct (_ =? 1)).
    rewrite Hbase.
    eexists _, _, _, (round_locs (length base + 2) (length wl - 1)).
    split; [reflexivity|]. cbn [app]. rewrite nth_error_middle.
    split; [reflexivity|]. split; [lia|]. split; [reflexivity|].
    split; [apply round_locs_NoDup|].
    intros l (k & <- & Hk%in_seq)%in_map_iff.
    rewrite length_app. cbn [length]. rewrite round_objects_length. lia.
Qed.

Lemma results_are_new_objects_witness :
  exists rounds byes_per_round s' round_lists,
    generate_round_robin 0 [Strs ["Alice"; "Bob"]]
    = Some ((rounds, byes_per_round), s') /\
    nth_error s' rounds = Some (Refs round_lists) /\
    length [Strs ["Alice"; "Bob"]] <= rounds /\ byes_per_round = S rounds /\
    NoDup round_lists /\
    forall l, In l round_lists -> byes_per_round < l < length s'.
Proof.
  apply (results_are_new_objects [Strs ["Alice"; "Bob"]] 0 ["Alice"; "Bob"]).
  reflexivity.
Defined.

(** Two players whose names are at no other position of the working list
    meet in exactly one pairing of the schedule. *)
Lemma meetings_unique_positions (wl : list string) (h p q : nat) :
  length wl = 2 * h + 2 -> p < q -> q <= 2 * h + 1 ->
  (forall i, i <= 2 * h + 1 -> nth i wl "" = nth p wl "" -> i = p) ->
  (forall i, i <= 2 * h + 1 -> nth i wl "" = nth q wl "" -> i = q) ->
  nth p wl "" <> BYE -> nth q wl "" <> BYE ->
  meetings (nth p wl "") (nth q wl "") (rounds_of wl) = 1.
Proof.
  intros Hlen Hpq Hq Hpu Hqu Hp' Hq'. unfold meetings.
  rewrite (concat_rounds_of wl h Hlen).
  rewrite filter_implied by (intros x; now apply same_pairing_real).
  rewrite filter_map_swap, length_map.
  apply (NoDup_map_filter_one ordered _ (p, q)).
  - apply slots_NoDup.
  - apply slots_complete; assumption.
  - intros [x y] Hin. destruct (slots_bound h x y Hin) as [Hx Hy].
    unfold same_pairing, players_at, ordered. cbn [fst snd].
    rewrite orb_true_iff, !andb_true_iff, !String.eqb_eq.
    destruct (Nat.ltb_spec x y) as [Hxy|Hxy]; split.
    + intros [[E1 E2]|[E1 E2]]; symmetry in E1, E2;
        first [apply Hpu in E1 | apply Hqu in E1];
        first [apply Hpu in E2 | apply Hqu in E2]; try lia; congruence.
    + intros E. injection E as -> ->. now left.
    + intros [[E1 E2]|[E1 E2]]; symmetry in E1, E2;
        first [apply Hpu in E1 | apply Hqu in E1];
        first [apply Hpu in E2 | apply Hqu in E2]; try lia; congruence.
    + intros E. injection E as -> ->. now right.
Qed.

(** A participant not called "BYE" is at one position of the working
    list only, the one it has in the list given. *)
Lemma working_list_position (players : list string) (p i : nat) :
  NoDup players -> p < length players -> nth p players "" <> BYE ->
  i < length (working_list players) ->
  nth i (working_list players) "" = nth p players "" -> i = p.
Proof.
  intros Hnd Hp Hne. unfold working_list. destruct (_ =? 1).
  - rewrite length_app. cbn [length]. intros Hi.
    destruct (Nat.lt_ge_cases i (length players)) as [Hlt|Hge].
    + rewrite app_nth1 by assumption.
      now apply (proj1 (NoDup_nth players "") Hnd).
    + rewrite app_nth2 by assumption.
      replace (i - length players) with 0 by lia. cbn [nth].
      intros E. now rewrite E in Hne.
  - intros Hi. now apply (proj1 (NoDup_nth players "") Hnd).
Qed.

(** X22: for every list of [N >= 2] unique participants, every two
    distinct participants neither of whom is called "BYE" meet in exactly
    one pairing over all the rounds returned, also in a list that has a
    participant called "BYE"; and when none is called so, the schedule
    has [N * (N - 1) / 2] pairings. *)
Theorem pairs_meet_once (players : list string) :
  NoDup players -> 2 <= length players ->
  exists rounds byes,
    call players = Some (rounds, byes) /\
    (forall a b, In a players -> In b players -> a <> b ->
                 a <> BYE -> b <> BYE -> meetings a b rounds = 1) /\
    (~ In BYE players ->
     length (concat rounds) = length players * (length players - 1) / 2).
Proof.
  intros Hnd HN.
  set (wl := working_list players).
  destruct (working_list_shape players HN) as (h & Hlen & HNh). fold wl in Hlen.
  exists (rounds_of wl), (byes_of wl).
  past_guard call_eq.
  split; [reflexivity|]. split.
  - assert (Hmeet : forall p q, p < q -> q < length players ->
                      nth p players "" <> BYE -> nth q players "" <> BYE ->
                      meetings (nth p players "") (nth q players "") (rounds_of wl) = 1).
    { intros p q Hpq Hq Hp' Hq'.
      rewrite <- (nth_working_list players p), <- (nth_working_list players q)
        by lia.
      fold wl.
      apply (meetings_unique_positions wl h); try assumption.
      - destruct (length players mod 2 =? 1); lia.
      - intros i Hi. unfold wl. rewrite (nth_working_list players p) by lia.
        apply working_list_position; try assumption; try lia.
        fold wl. lia.
      - intros i Hi. unfold wl. rewrite (nth_working_list players q) by lia.
        apply working_list_position; try assumption; try lia.
        fold wl. lia.
      - unfold wl. now rewrite nth_working_list by lia.
      - unfold wl. now rewrite nth_working_list by lia. }
    intros a b Ha Hb Hab Ha' Hb'.
    apply (In_nth _ _ "") in Ha as (p & Hp & <-).
    apply (In_nth _ _ "") in Hb as (q & Hq & <-).
    destruct (Nat.lt_trichotomy p q) as [Hlt|[->|Hgt]].
    + now apply Hmeet.
    + contradiction.
    + rewrite meetings_sym. now apply Hmeet.
  - intros Hbye.
    assert (Hc : count_occ string_dec wl BYE
                 = if length players mod 2 =? 1 then 1 else 0).
    { unfold wl. rewrite count_working_list.
      rewrite (proj1 (count_occ_not_In string_dec players BYE) Hbye).
      destruct (_ =? 1); [|reflexivity].
      destruct (string_dec BYE BYE); [reflexivity|contradiction]. }
    rewrite (total_pairings wl h Hlen) by (rewrite Hc; destruct (_ =? 1); lia).
    rewrite Hc. symmetry.
    destruct (length players mod 2 =? 1); rewrite HNh.
    + replace ((2 * h + 2 - 1) * (2 * h + 2 - 1 - 1))
        with ((2 * h + 1) * (S h - 1) * 2) by nia.
      apply Nat.div_mul. lia.
    + replace ((2 * h + 2 - 0) * (2 * h + 2 - 0 - 1))
        with ((2 * h + 1) * (S h - 0) * 2) by nia.
      apply Nat.div_mul. lia.
Qed.

Lemma pairs_meet_once_witness :
  exists rounds byes,
    call ["Alice"; "BYE"; "Bob"] = Some (rounds, byes) /\
    (forall a b, In a ["Alice"; "BYE"; "Bob"] -> In b ["Alice"; "BYE"; "Bob"] ->
                 a <> b -> a <> BYE -> b <> BYE -> meetings a b rounds = 1) /\
    (~ In BYE ["Alice"; "BYE"; "Bob"] ->
     length (concat rounds)
     = length ["Alice"; "BYE"; "Bob"] * (length ["Alice"; "BYE"; "Bob"] - 1) / 2).
Proof.
  apply pairs_meet_once.
  - distinct_names.
  - cbn. lia.
Defined.

(** ** Renaming the participants *)

Section Renaming.

Variable f : string -> string.
Hypothesis f_BYE : f BYE = BYE.
Hypothesis f_only_BYE : forall x, f x = BYE -> x = BYE.
Hypothesis f_empty : f "" = "".

Lemma rotate_map (l : list string) : rotate (map f l) = map f (rotate l).
Proof.
  destruct l as [|a [|b t]]; try reflexivity.
  cbn [map rotate app]. now rewrite map_app.
Qed.

Lemma iter_rotate_map (k : nat) (l : list string) :
  Nat.iter k rotate (map f l) = map f (Nat.iter k rotate l).
Proof.
  induction k as [|k IH]; [reflexivity|].
  cbn [Nat.iter nat_rect] in *.
  change (rotate (Nat.iter k rotate (map f l)) = map f (rotate (Nat.iter k rotate l))).
  now rewrite IH, rotate_map.
Qed.

Lemma nth_map_rename (l : list string) (i : nat) :
  nth i (map f l) "" = f (nth i l "").
Proof. rewrite <- (map_nth f l "" i). now rewrite f_empty. Qed.

Lemma index_pairs_map (wl : list string) :
  index_pairs (map f wl) = map (rename_pairing f) (index_pairs wl).
Proof.
  unfold index_pairs. rewrite length_map, map_map.
  apply map_ext. intros i. unfold rename_pairing. cbn [fst snd].
  now rewrite !nth_map_rename.
Qed.

Lemma not_bye_rename (x : string) : not_bye (f x) = not_bye x.
Proof.
  unfold not_bye. f_equal.
  destruct (String.eqb_spec x BYE) as [->|Hx].
  - rewrite f_BYE. apply String.eqb_refl.
  - apply String.eqb_neq. intros E. now apply f_only_BYE in E.
Qed.

Lemma real_pair_rename (pr : pairing) :
  real_pair (rename_pairing f pr) = real_pair pr.
Proof.
  unfold real_pair, rename_pairing. cbn [fst snd]. now rewrite !not_bye_rename.
Qed.

Lemma last_bye_rename (ps : list pairing) (b : option string) :
  last_bye (map (rename_pairing f) ps) (option_map f b)
  = option_map f (last_bye ps b).
Proof.
  revert b. induction ps as [|pr ps IH]; intros b; [reflexivity|].
  unfold last_bye in *. cbn [map fold_left].
  replace (match bye_of_pair (rename_pairing f pr) with
           | Some x => Some x
           | None => option_map f b
           end)
    with (option_map f (match bye_of_pair pr with Some x => Some x | None => b end)).
  - apply IH.
  - unfold bye_of_pair. rewrite real_pair_rename.
    unfold rename_pairing. cbn [fst snd]. rewrite !not_bye_rename.
    destruct (real_pair pr); [reflexivity|].
    destruct (not_bye (fst pr)); [reflexivity|].
    now destruct (not_bye (snd pr)).
Qed.

Lemma bye_entry_rename (b : option string) :
  bye_entry (option_map f b) = f (bye_entry b).
Proof.
  destruct b as [x|]; cbn [option_map bye_entry]; [|now rewrite f_empty].
  destruct (String.eqb_spec (f x) "") as [E|_], (String.eqb_spec x "") as [->|_];
    congruence.
Qed.

Lemma working_list_map (players : list string) :
  working_list (map f players) = map f (working_list players).
Proof.
  unfold working_list. rewrite length_map. destruct (_ =? 1); [|reflexivity].
  now rewrite map_app, <- f_BYE at 1.
Qed.

Lemma schedule_of_map (players : list string) :
  schedule_of (map f players) = rename_schedule f (schedule_of players).
Proof.
  unfold schedule_of, rename_schedule. rewrite length_map.
  destruct (length players <? 2); [reflexivity|].
  cbn [fst snd]. rewrite working_list_map.
  unfold rounds_of, byes_of. rewrite length_map, !map_map.
  f_equal; apply map_ext; intros k.
  - unfold round_of. rewrite iter_rotate_map, index_pairs_map.
    rewrite filter_map_swap. f_equal. apply filter_ext. intros pr.
    apply real_pair_rename.
  - unfold bye_of. rewrite iter_rotate_map, index_pairs_map.
    rewrite <- bye_entry_rename. f_equal.
    apply (last_bye_rename _ None).
Qed.

(** X21: the schedule depends on the names only through their positions.
    For a renaming [f] that keeps "BYE" and the empty string to
    themselves, the schedule of the renamed players is the renamed
    schedule of the players. *)
Theorem renaming_commutes (players : list string) :
  call (map f players) = option_map (rename_schedule f) (call players).
Proof. now rewrite !call_eq, schedule_of_map. Qed.

End Renaming.

Lemma renaming_commutes_witness :
  call (map (fun s => if String.eqb s "Alice" then "Zoe" else s)
            ["Alice"; "Bob"; "Charlie"])
  = option_map (rename_schedule (fun s => if String.eqb s "Alice" then "Zoe" else s))
               (call ["Alice"; "Bob"; "Charlie"]).
Proof.
  apply renaming_commutes; [reflexivity| |reflexivity].
  intros x. destruct (String.eqb_spec x "Alice"); [discriminate|tauto].
Defined.

(** * The formatter *)

Example tournament_text_three :
  tournament_text ["Alice"; "Bob"; "Charlie"] = Some
"🎯 **Round Robin Tournament**

👥 **Players:** Alice, Bob, Charlie
📊 **Total Players:** 3
🔄 **Total Rounds:** 3

ℹ️ *Note: Odd number of players - one player will have a bye each round*

**Round 1:**
  ⚔️ Bob vs Charlie
  😴 Alice (bye)

**Round 2:**
  ⚔️ Alice vs Bob
  😴 Charlie (bye)

**Round 3:**
  ⚔️ Alice vs Charlie
  😴 Bob (bye)

".
Proof. reflexivity. Qed.

Lemma append_assoc (a b c : string) : ((a ++ b) ++ c)%string = (a ++ (b ++ c))%string.
Proof. induction a as [|ch a IH]; [reflexivity|]. cbn. now rewrite IH. Qed.

Lemma append_nil_r (a : string) : (a ++ "")%string = a.
Proof. induction a as [|ch a IH]; [reflexivity|]. cbn. now rewrite IH. Qed.

(** The loops of the formatter only append to [output]. *)
Lemma format_pairings_app (output : string) (round_pairings : round) :
  format_pairings output round_pairings
  = (output ++ format_pairings "" round_pairings)%string.
Proof.
  revert output. induction round_pairings as [|[player1 player2] prs IH];
    intros output.
  - cbn. now rewrite append_nil_r.
  - unfold format_pairings in *. cbn [fold_left].
    rewrite IH. rewrite (IH (append "" _)).
    now rewrite append_assoc.
Qed.

Lemma format_round_app (byes_per_round : list string) (output : string)
    (item : nat * round) :
  format_round byes_per_round output item
  = option_map (append output) (format_round byes_per_round "" item).
Proof.
  destruct item as [round_num round_pairings]. unfold format_round.
  rewrite format_pairings_app.
  rewrite (format_pairings_app (append "" _)).
  destruct (round_num <=? length byes_per_round).
  - destruct (nth_error byes_per_round (round_num - 1)) as [entry|]; [|reflexivity].
    destruct (truthy entry); cbn [option_map]; f_equal;
      now rewrite !append_assoc.
  - cbn [option_map]. f_equal. now rewrite !append_assoc.
Qed.

(** The guard of line 124 keeps the index in range. *)
Lemma format_round_returns (byes_per_round : list string) (round_num : nat)
    (round_pairings : round) :
  1 <= round_num ->
  format_round byes_per_round "" (round_num, round_pairings)
  = Some (round_text byes_per_round (round_num, round_pairings)).
Proof.
  intros Hk. unfold round_text, format_round.
  destruct (Nat.leb_spec round_num (length byes_per_round)) as [Hle|Hgt];
    [|reflexivity].
  destruct (nth_error byes_per_round (round_num - 1)) as [entry|] eqn:E;
    [reflexivity|].
  apply nth_error_None in E. lia.
Qed.

Lemma format_rounds_eq (byes_per_round : list string) (items : list (nat * round)) :
  Forall (fun item => 1 <= fst item) items ->
  forall output,
  fold_raising (format_round byes_per_round) items output
  = Some (output ++ String.concat "" (map (round_text byes_per_round) items))%string.
Proof.
  induction 1 as [|[round_num prs] items Hk _ IH]; intros output.
  - cbn. now rewrite append_nil_r.
  - cbn [fold_raising]. rewrite format_round_app, format_round_returns by assumption.
    cbn [option_map]. rewrite IH. f_equal.
    rewrite append_assoc. f_equal.
    cbn [map String.concat]. destruct (map _ items); [now rewrite append_nil_r|].
    reflexivity.
Qed.

Lemma enumerate_from_1_positive {A : Type} (l : list A) :
  Forall (fun item => 1 <= fst item) (enumerate_from_1 l).
Proof.
  apply Forall_forall. intros [k x] Hin.
  apply in_combine_l, in_seq in Hin. cbn. lia.
Qed.

(** From one round on, the text is the header and then what each round
    adds, in order. *)
Lemma format_eq (players : list string) (rounds : list round)
    (byes_per_round : list string) :
  rounds <> [] ->
  format_round_robin_output players rounds byes_per_round
  = Some (format_header players rounds
          ++ String.concat "" (map (round_text byes_per_round)
                                   (enumerate_from_1 rounds)))%string.
Proof.
  intros Hne. unfold format_round_robin_output.
  destruct rounds as [|r rounds]; [contradiction|].
  apply format_rounds_eq, enumerate_from_1_positive.
Qed.

Lemma format_header_title (players : list string) (rounds : list round) :
  exists rest, format_header players rounds = (TITLE ++ rest)%string.
Proof.
  unfold format_header.
  destruct (length players mod 2 =? 1); eexists;
    rewrite ?append_assoc; reflexivity.
Qed.

Lemma format_returns (players : list string) (rounds : list round)
    (byes_per_round : list string) :
  exists output, format_round_robin_output players rounds byes_per_round = Some output.
Proof.
  destruct rounds as [|r rounds].
  - now exists NEED_TWO_PLAYERS.
  - eexists. now apply format_eq.
Qed.

(** X8: [format_round_robin_output] raises for no arguments: whatever the
    lengths of [rounds] and [byes_per_round], [byes_per_round[round_num - 1]]
    is read in range. *)
Theorem format_never_raises (players : list string) (rounds : list round)
    (byes_per_round : list string) :
  exists output, format_round_robin_output players rounds byes_per_round = Some output.
Proof. apply format_returns. Qed.

(** X20: from one round on, the text is the header followed by what each
    round adds, in the order of the rounds and numbered from 1; what a
    round adds does not depend on the text before it. *)
Theorem format_is_header_then_rounds (players : list string) (rounds : list round)
    (byes_per_round : list string) :
  rounds <> [] ->
  format_round_robin_output players rounds byes_per_round
  = Some (format_header players rounds
          ++ String.concat "" (map (round_text byes_per_round)
                                   (combine (seq 1 (length rounds)) rounds)))%string
  /\ forall output round_num round_pairings,
       1 <= round_num ->
       format_round byes_per_round output (round_num, round_pairings)
       = Some (output ++ round_text byes_per_round (round_num, round_pairings))%string.
Proof.
  intros Hne. split; [now apply format_eq|].
  intros output round_num round_pairings Hk.
  now rewrite format_round_app, format_round_returns.
Qed.

Lemma format_is_header_then_rounds_witness :
  format_round_robin_output ["Alice"; "Bob"] [[("Alice", "Bob")]] [""]
  = Some (format_header ["Alice"; "Bob"] [[("Alice", "Bob")]]
          ++ String.concat "" (map (round_text [""])
                                   (combine (seq 1 1) [[("Alice", "Bob")]])))%string
  /\ forall output round_num round_pairings,
       1 <= round_num ->
       format_round [""] output (round_num, round_pairings)
       = Some (output ++ round_text [""] (round_num, round_pairings))%string.
Proof. apply format_is_header_then_rounds. discriminate. Defined.

Lemma format_reports_no_rounds_aux (players : list string) (rounds : list round)
    (byes_per_round : list string) :
  (format_round_robin_output players rounds byes_per_round = Some NEED_TWO_PLAYERS
   <-> rounds = []) /\
  (rounds <> [] ->
   exists rest, format_round_robin_output players rounds byes_per_round
                = Some (TITLE ++ rest)%string).
Proof.
  assert (Htitle : rounds <> [] ->
            exists rest, format_round_robin_output players rounds byes_per_round
                         = Some (TITLE ++ rest)%string).
  { intros Hne. rewrite format_eq by assumption.
    destruct (format_header_title players rounds) as [rest ->].
    eexists. now rewrite append_assoc. }
  split; [|exact Htitle]. split.
  - intros E. destruct rounds as [|r rounds]; [reflexivity|].
    destruct Htitle as [rest E']; [discriminate|].
    rewrite E in E'. discriminate E'.
  - now intros ->.
Qed.

(** X9: the formatter answers "Need at least 2 players" exactly when it is
    given no round; from one round on its text starts with the title. *)
Theorem format_reports_no_rounds (players : list string) (rounds : list round)
    (byes_per_round : list string) :
  (format_round_robin_output players rounds byes_per_round = Some NEED_TWO_PLAYERS
   <-> rounds = []) /\
  (rounds <> [] ->
   exists rest, format_round_robin_output players rounds byes_per_round
                = Some (TITLE ++ rest)%string).
Proof. apply format_reports_no_rounds_aux. Qed.

Lemma round_text_ext (byes byes' : list string) (round_num : nat) (prs : round) :
  1 <= round_num ->
  nth (round_num - 1) byes "" = nth (round_num - 1) byes' "" ->
  round_text byes (round_num, prs) = round_text byes' (round_num, prs).
Proof.
  intros Hk E. unfold round_text, format_round.
  destruct (Nat.leb_spec round_num (length byes)) as [Hle|Hgt],
           (Nat.leb_spec round_num (length byes')) as [Hle'|Hgt'];
    rewrite ?(nth_error_nth' byes "") by lia;
    rewrite ?(nth_error_nth' byes' "") by lia.
  - now rewrite E.
  - rewrite E, (nth_overflow byes' "") by lia. reflexivity.
  - rewrite <- E, (nth_overflow byes "") by lia. reflexivity.
  - reflexivity.
Qed.

(** X10: the text depends on [byes_per_round] through its entries at the
    positions of the rounds only, a missing entry counting as an empty
    one: entries past the last round are never read, and too short a list
    is no error. *)
Theorem format_reads_byes_by_round (players : list string) (rounds : list round)
    (byes byes' : list string) :
  (forall k, k < length rounds -> nth k byes "" = nth k byes' "") ->
  format_round_robin_output players rounds byes
  = format_round_robin_output players rounds byes'.
Proof.
  intros Hsame. destruct rounds as [|r rounds]; [reflexivity|].
  rewrite !format_eq by discriminate. do 3 f_equal.
  apply map_ext_in. intros [k prs] Hin.
  apply in_combine_l, in_seq in Hin.
  apply round_text_ext; [lia|]. apply Hsame. lia.
Qed.

Lemma format_reads_byes_by_round_witness :
  format_round_robin_output ["Alice"; "Bob"; "Charlie"] [[("Bob", "Charlie")]] ["Alice"]
  = format_round_robin_output ["Alice"; "Bob"; "Charlie"] [[("Bob", "Charlie")]]
                              ["Alice"; "Charlie"; "Bob"].
Proof.
  apply format_reads_byes_by_round.
  intros k Hk. cbn in Hk. destruct k as [|k]; [reflexivity|lia].
Defined.

(** * The message handler *)

Lemma split_not_nil (sep : ascii) (s : string) : split sep s <> [].
Proof.
  destruct s as [|ch rest]; cbn; [discriminate|].
  destruct (Ascii.eqb ch sep); [discriminate|].
  destruct (split sep rest); discriminate.
Qed.

(** One piece more than there are separators. *)
Lemma split_length (sep : ascii) (s : string) :
  length (split sep s)
  = S (count_occ ascii_dec (list_ascii_of_string s) sep).
Proof.
  induction s as [|ch rest IH]; [reflexivity|].
  cbn [split list_ascii_of_string count_occ].
  destruct (Ascii.eqb_spec ch sep) as [->|Hne].
  - destruct (ascii_dec sep sep); [|contradiction]. cbn [length]. now rewrite IH.
  - destruct (ascii_dec ch sep); [contradiction|].
    rewrite <- IH. pose proof (split_not_nil sep rest).
    destruct (split sep rest); [contradiction|reflexivity].
Qed.

(** Joining the pieces with the separator gives the string back. *)
Lemma split_join (sep : ascii) (s : string) :
  String.concat (String sep "") (split sep s) = s.
Proof.
  induction s as [|ch rest IH]; [reflexivity|].
  cbn [split]. pose proof (split_not_nil sep rest) as Hne.
  destruct (split sep rest) as [|piece pieces]; [contradiction|].
  destruct (Ascii.eqb_spec ch sep) as [->|_].
  - cbn [String.concat append] in *. now f_equal.
  - destruct pieces; cbn [String.concat append] in *; now f_equal.
Qed.

Section Parsing.

Variable strip : string -> string.

Lemma parse_players_length (message_text : string) :
  length (parse_players strip message_text)
  <= S (count_occ ascii_dec (list_ascii_of_string message_text) ","%char).
Proof.
  unfold parse_players. rewrite length_map, <- split_length.
  apply filter_length_le.
Qed.

Lemma parse_players_not_empty (message_text p : string) :
  In p (parse_players strip message_text) -> p <> "".
Proof.
  unfold parse_players. intros (piece & <- & Hin)%in_map_iff.
  apply filter_In in Hin as [_ Htruthy].
  unfold truthy in Htruthy. now apply negb_true_iff, String.eqb_neq in Htruthy.
Qed.

End Parsing.

Section Deduplication.

Variable lower : string -> string.

(** The state of the loop of lines 184-187 after the players [done]:
    [seen] holds their lower-cased names. *)
Lemma remember_seen (players done : list string) :
  forall seen unique_players,
  (forall k, In k seen <-> In k (map lower done)) ->
  forall k, In k (fst (fold_left (remember lower) players (seen, unique_players)))
            <-> In k (map lower (done ++ players)).
Proof.
  revert done. induction players as [|p players IH]; intros done seen unique Hseen k.
  - cbn. now rewrite app_nil_r.
  - cbn [fold_left]. replace (done ++ p :: players) with ((done ++ [p]) ++ players)
      by (now rewrite <- app_assoc).
    unfold remember at 2.
    destruct (existsb (String.eqb (lower p)) seen) eqn:E; cbn [negb].
    + apply IH. intros k'. rewrite map_app, in_app_iff, <- Hseen. cbn.
      apply existsb_exists in E as (x & Hx & ->%String.eqb_eq).
      intuition (subst; assumption).
    + apply IH. intros k'. rewrite map_app, in_app_iff, <- Hseen. cbn. tauto.
Qed.

Lemma fold_remember_snoc (players : list string) (p : string) :
  forall st,
  fold_left (remember lower) (players ++ [p]) st
  = remember lower (fold_left (remember lower) players st) p.
Proof. intros st. now rewrite fold_left_app. Qed.

(** The loop, one player at a time: a player is kept when no earlier
    player has the same lower-cased name. *)
Lemma unique_players_of_snoc (players : list string) (p : string) :
  unique_players_of lower (players ++ [p])
  = if existsb (String.eqb (lower p)) (map lower players)
    then unique_players_of lower players
    else unique_players_of lower players ++ [p].
Proof.
  unfold unique_players_of. rewrite fold_remember_snoc.
  pose proof (remember_seen players [] [] [] ltac:(cbn; tauto)) as Hseen.
  cbn [app] in Hseen.
  destruct (fold_left (remember lower) players ([], [])) as [seen unique].
  cbn [fst snd] in *. unfold remember.
  assert (E : existsb (String.eqb (lower p)) seen
              = existsb (String.eqb (lower p)) (map lower players)).
  { apply eq_true_iff_eq. rewrite !existsb_exists.
    split; intros (x & Hx & Heq); exists x; (split; [now apply Hseen|assumption]). }
  rewrite E. now destruct (existsb _ (map lower players)).
Qed.

Lemma unique_players_subset (players : list string) (q : string) :
  In q (unique_players_of lower players) -> In q players.
Proof.
  induction players as [|p players IH] using rev_ind; [intros []|].
  rewrite unique_players_of_snoc, in_app_iff.
  destruct (existsb _ _); [tauto|].
  rewrite in_app_iff. cbn. tauto.
Qed.

Lemma unique_players_cover (players : list string) (k : string) :
  In k (map lower players) <-> In k (map lower (unique_players_of lower players)).
Proof.
  revert k. induction players as [|p players IH] using rev_ind; intros k;
    [reflexivity|].
  rewrite unique_players_of_snoc, map_app, in_app_iff, IH. cbn [map In].
  destruct (existsb _ _) eqn:E.
  - apply existsb_exists in E as (x & Hx & ->%String.eqb_eq).
    apply (proj1 (IH x)) in Hx. intuition (subst; assumption).
  - rewrite map_app, in_app_iff. cbn. tauto.
Qed.

Lemma unique_players_NoDup (players : list string) :
  NoDup (map lower (unique_players_of lower players))
  /\ NoDup (unique_players_of lower players).
Proof.
  assert (H : NoDup (map lower (unique_players_of lower players))).
  { induction players as [|p players IH] using rev_ind; [constructor|].
    rewrite unique_players_of_snoc.
    destruct (existsb _ _) eqn:E; [assumption|].
    rewrite map_app. apply NoDup_app; [assumption|repeat constructor; intros []|].
    intros k Hk [<-|[]].
    apply (proj2 (unique_players_cover players (lower p))) in Hk.
    assert (existsb (String.eqb (lower p)) (map lower players) = true)
      by (apply existsb_exists; exists (lower p); split;
          [assumption|apply String.eqb_refl]).
    congruence. }
  split; [assumption|now apply NoDup_map_inv in H].
Qed.

(** X11: no two of the players kept have the same name up to case: the
    list given to the scheduler has no duplicates. *)
Theorem unique_players_differ (players : list string) :
  NoDup (map lower (unique_players_of lower players))
  /\ NoDup (unique_players_of lower players).
Proof. apply unique_players_NoDup. Qed.

(** X12: the player kept for a name is its first spelling: every player
    kept is a player of the message, every player of the message has its
    name kept, and a player before whom nobody has the same name up to
    case is kept as written. *)
Theorem unique_players_keep_first (players : list string) :
  (forall q, In q (unique_players_of lower players) -> In q players) /\
  (forall p, In p players ->
             In (lower p) (map lower (unique_players_of lower players))) /\
  (forall before p after,
     players = before ++ p :: after ->
     ~ In (lower p) (map lower before) ->
     In p (unique_players_of lower players)).
Proof.
  split; [apply unique_players_subset|]. split.
  - intros p Hp. apply (proj1 (unique_players_cover players (lower p))).
    now apply in_map.
  - intros before p after -> Hfirst.
    induction after as [|x after IH] using rev_ind.
    + rewrite unique_players_of_snoc.
      destruct (existsb _ _) eqn:E; [|apply in_app_iff; cbn; tauto].
      apply existsb_exists in E as (x & Hx & Heq%String.eqb_eq).
      rewrite <- Heq in Hx. contradiction.
    + change (before ++ p :: after ++ [x]) with (before ++ (p :: after) ++ [x]).
      rewrite app_assoc, unique_players_of_snoc.
      destruct (existsb _ _); [assumption|apply in_app_iff; tauto].
Qed.

(** X13: players that already differ up to case are all kept, in their
    order. *)
Theorem unique_players_of_distinct (players : list string) :
  NoDup (map lower players) -> unique_players_of lower players = players.
Proof.
  induction players as [|p players IH] using rev_ind; [reflexivity|].
  rewrite map_app. intros Hnd. rewrite unique_players_of_snoc.
  destruct (existsb _ _) eqn:E.
  - apply existsb_exists in E as (x & Hx & Heq%String.eqb_eq).
    rewrite <- Heq in Hx. exfalso. revert Hx. clear -Hnd. cbn [map] in Hnd.
    induction (map lower players) as [|a l IHl]; [intros []|].
    cbn in Hnd. apply NoDup_cons_iff in Hnd as [Ha Hnd].
    intros [->|Hx]; [apply Ha; apply in_app_iff; cbn; tauto|now apply IHl].
  - rewrite IH; [reflexivity|]. now apply NoDup_app_remove_r in Hnd.
Qed.

End Deduplication.

Lemma unique_players_of_distinct_witness :
  unique_players_of (fun s => s) ["Alice"; "alice"; "Bob"]
  = ["Alice"; "alice"; "Bob"].
Proof.
  apply (unique_players_of_distinct (fun s => s) ["Alice"; "alice"; "Bob"]).
  simpl. distinct_names.
Defined.

(** The schedule of unique participants, none called "BYE", is complete. *)
Lemma schedule_complete (players : list string) :
  NoDup players -> 2 <= length players -> ~ In BYE players ->
  complete players.
Proof.
  intros Hnd HN Hbye. unfold complete.
  set (wl := working_list players).
  destruct (working_list_shape players HN) as (h & Hlen & HNh). fold wl in Hlen.
  assert (Hwl : NoDup wl) by (now apply working_list_NoDup).
  exists (rounds_of wl), (byes_of wl).
  past_guard call_eq.
  split; [reflexivity|]. split.
  - assert (Hmeet : forall p q, p < q -> q < length players ->
                      meetings (nth p players "") (nth q players "") (rounds_of wl) = 1).
    { intros p q Hpq Hq.
      rewrite <- (nth_working_list players p), <- (nth_working_list players q)
        by lia.
      fold wl.
      apply (meetings_positions wl h); try assumption.
      - destruct (length players mod 2 =? 1); lia.
      - unfold wl. rewrite nth_working_list by lia.
        intros E. apply Hbye. rewrite <- E. apply nth_In. lia.
      - unfold wl. rewrite nth_working_list by lia.
        intros E. apply Hbye. rewrite <- E. now apply nth_In. }
    intros a b Ha Hb Hab.
    apply (In_nth _ _ "") in Ha as (p & Hp & <-).
    apply (In_nth _ _ "") in Hb as (q & Hq & <-).
    destruct (Nat.lt_trichotomy p q) as [Hlt|[->|Hgt]].
    + now apply Hmeet.
    + contradiction.
    + rewrite meetings_sym. now apply Hmeet.
  - assert (Hc : count_occ string_dec wl BYE
                 = if length players mod 2 =? 1 then 1 else 0).
    { unfold wl. rewrite count_working_list.
      rewrite (proj1 (count_occ_not_In string_dec players BYE) Hbye).
      destruct (_ =? 1); [|reflexivity].
      destruct (string_dec BYE BYE); [reflexivity|contradiction]. }
    rewrite (total_pairings wl h Hlen) by (rewrite Hc; destruct (_ =? 1); lia).
    rewrite Hc. symmetry.
    destruct (length players mod 2 =? 1); rewrite HNh.
    + replace ((2 * h + 2 - 1) * (2 * h + 2 - 1 - 1))
        with ((2 * h + 1) * (S h - 1) * 2) by nia.
      apply Nat.div_mul. lia.
    + replace ((2 * h + 2 - 0) * (2 * h + 2 - 0 - 1))
        with ((2 * h + 1) * (S h - 0) * 2) by nia.
      apply Nat.div_mul. lia.
Qed.
(** The formatter reads the list object after the scheduler has run: it
    holds the players given, and the text is that of their schedule. *)
Lemma tournament_text_eq (unique_players : list string) :
  tournament_text unique_players
  = format_round_robin_output unique_players
      (fst (schedule_of unique_players)) (snd (schedule_of unique_players)).
Proof.
  unfold tournament_text.
  rewrite (generate_round_robin_run [Strs unique_players] 0 unique_players eq_refl).
  rewrite read_final_store.
  assert (Hkept : read_strs (final_store [Strs unique_players] unique_players) 0
                  = Some unique_players).
  { unfold read_strs, final_store.
    destruct (length unique_players <? 2); [reflexivity|].
    now rewrite <- app_assoc. }
  rewrite Hkept. now destruct (schedule_of unique_players).
Qed.

(** X14: for two players or more the text sent is the formatted schedule
    of the very players given, and it starts with the title: the branch of
    the formatter for a schedule without rounds is never taken from the
    handler, and neither call raises. *)
Theorem tournament_text_is_schedule (unique_players : list string) :
  2 <= length unique_players ->
  exists rounds byes rest,
    call unique_players = Some (rounds, byes) /\
    tournament_text unique_players
    = format_round_robin_output unique_players rounds byes /\
    tournament_text unique_players = Some (TITLE ++ rest)%string.
Proof.
  intros HN. rewrite tournament_text_eq, call_eq.
  destruct (schedule_of unique_players) as [rounds byes] eqn:E.
  assert (Hne : rounds <> []).
  { unfold schedule_of in E.
    destruct (Nat.ltb_spec (length unique_players) 2) as [|_]; [lia|].
    injection E as <- _. intros Hnil.
    apply (f_equal (@length round)) in Hnil. rewrite rounds_of_length in Hnil.
    destruct (working_list_shape unique_players HN) as (h & Hlen & _).
    cbn in Hnil. lia. }
  destruct (proj2 (format_reports_no_rounds_aux unique_players rounds byes) Hne)
    as [rest Hrest].
  exists rounds, byes, rest. cbn [fst snd]. now repeat split.
Qed.

Lemma tournament_text_is_schedule_witness :
  exists rounds byes rest,
    call ["Alice"; "Bob"] = Some (rounds, byes) /\
    tournament_text ["Alice"; "Bob"]
    = format_round_robin_output ["Alice"; "Bob"] rounds byes /\
    tournament_text ["Alice"; "Bob"] = Some (TITLE ++ rest)%string.
Proof. apply tournament_text_is_schedule. cbn. lia. Defined.

Lemma in_reply_text (delivers : reply -> bool) (r x : reply) :
  In x (fst (reply_text delivers r)) -> x = r.
Proof.
  unfold reply_text. destruct (delivers r); cbn; [|tauto].
  intros [<-|[]]. reflexivity.
Qed.

Section HandlerProperties.

Variable strip : string -> string.
Variable lower : string -> string.
Variable delivers : reply -> bool.
Variable caught : reply -> bool.

Lemma scheduler_input (received : string) :
  let unique_players :=
    unique_players_of lower (parse_players strip (strip received)) in
  NoDup unique_players /\ NoDup (map lower unique_players) /\
  ~ In "" unique_players.
Proof.
  intros unique_players.
  destruct (unique_players_NoDup lower (parse_players strip (strip received)))
    as [H1 H2].
  repeat split; try assumption.
  intros Hin. apply unique_players_subset in Hin.
  now apply parse_players_not_empty in Hin.
Qed.

(** X15: whatever the message, the players that reach the scheduler are
    pairwise different, also up to case, and none is the empty string. *)
Theorem players_given_to_scheduler (received : string) :
  let unique_players :=
    unique_players_of lower (parse_players strip (strip received)) in
  NoDup unique_players /\ NoDup (map lower unique_players) /\
  ~ In "" unique_players.
Proof. apply scheduler_input. Qed.

(** X16: when the service delivers every reply, every message gets
    exactly one, and the handler returns. *)
Theorem every_message_answered (received : string) :
  (forall r, delivers r = true) ->
  exists r, handle_message strip lower delivers caught received = ([r], Returned).
Proof.
  intros Hall. unfold handle_message, start, reply_text.
  repeat match goal with
         | |- context [if ?c then _ else _] =>
             lazymatch c with
             | delivers _ => rewrite (Hall _)
             | _ => destruct c
             end
         | |- context [match tournament_text ?l with _ => _ end] =>
             destruct (tournament_text l)
         end; eexists; reflexivity.
Qed.

(** X17: the reply "An error occurred" is sent only after the service has
    refused the text of a schedule, with an exception that line 205
    catches: the scheduler and the formatter never cause it. *)
Theorem failure_only_after_refusal (received : string) :
  In (mk_reply FAILED None)
     (fst (handle_message strip lower delivers caught received)) ->
  exists output,
    tournament_text
      (unique_players_of lower (parse_players strip (strip received)))
    = Some output /\
    delivers (mk_reply output (Some "Markdown")) = false /\
    caught (mk_reply output (Some "Markdown")) = true.
Proof.
  unfold handle_message, start.
  destruct (_ || _).
  { intros E%in_reply_text. discriminate E. }
  destruct (_ <? 2).
  { intros E%in_reply_text. discriminate E. }
  destruct (_ <? 2).
  { intros E%in_reply_text. discriminate E. }
  rewrite tournament_text_eq.
  destruct (format_returns
              (unique_players_of lower (parse_players strip (strip received)))
              (fst (schedule_of (unique_players_of lower
                                   (parse_players strip (strip received)))))
              (snd (schedule_of (unique_players_of lower
                                   (parse_players strip (strip received))))))
    as [output ->].
  destruct (delivers (mk_reply output (Some "Markdown"))) eqn:E.
  - cbn. intros [H|[]]. discriminate H.
  - destruct (caught (mk_reply output (Some "Markdown"))) eqn:Ec.
    + intros _. now exists output.
    + intros [].
Qed.

(** X18: whatever the message, if it names two players or more up to case
    and none is called "BYE", the schedule sent has every two of them meet
    exactly once. *)
Theorem bot_schedule_is_complete (received : string) :
  let unique_players :=
    unique_players_of lower (parse_players strip (strip received)) in
  2 <= length unique_players -> ~ In BYE unique_players ->
  complete unique_players.
Proof.
  intros unique_players HN Hbye.
  apply schedule_complete; try assumption.
  apply (scheduler_input received).
Qed.

(** X19: a message without a comma names one player at most: it is
    answered by the usage text or by "at least 2 players", and the
    scheduler is not called. *)
Theorem needs_a_comma (received : string) :
  count_occ ascii_dec (list_ascii_of_string (strip received)) ","%char = 0 ->
  handle_message strip lower delivers caught received = start delivers \/
  handle_message strip lower delivers caught received
  = reply_text delivers (mk_reply TOO_FEW_PLAYERS None).
Proof.
  intros Hcount. unfold handle_message.
  destruct (_ || _); [now left|right].
  pose proof (parse_players_length strip (strip received)) as Hlen.
  rewrite Hcount in Hlen.
  destruct (Nat.ltb_spec (length (parse_players strip (strip received))) 2);
    [reflexivity|lia].
Qed.

End HandlerProperties.

Lemma every_message_answered_witness :
  exists r,
    handle_message (fun s => s) (fun s => s) (fun _ => true) (fun _ => true)
      "Alice,Bob"
    = ([r], Returned).
Proof. apply every_message_answered. reflexivity. Defined.

Lemma failure_only_after_refusal_witness :
  exists output,
    tournament_text (unique_players_of (fun s => s)
                       (parse_players (fun s => s) "Alice,Bob"))
    = Some output /\
    (fun r : reply => match parse_mode r with Some _ => false | None => true end)
      (mk_reply output (Some "Markdown")) = false /\
    (fun _ : reply => true) (mk_reply output (Some "Markdown")) = true.
Proof.
  apply (failure_only_after_refusal (fun s => s) (fun s => s)
           (fun r => match parse_mode r with Some _ => false | None => true end)
           (fun _ => true) "Alice,Bob").
  vm_compute. left. reflexivity.
Defined.

Lemma bot_schedule_is_complete_witness :
  complete (unique_players_of (fun s => s)
              (parse_players (fun s => s) "Alice,Bob,alice,Charlie,Bob")).
Proof.
  apply (bot_schedule_is_complete (fun s => s) (fun s => s)
           "Alice,Bob,alice,Charlie,Bob").
  - vm_compute. lia.
  - vm_compute. intuition discriminate.
Defined.

Lemma needs_a_comma_witness :
  handle_message (fun s => s) (fun s => s) (fun _ => true) (fun _ => true)
    "Alice"
  = start (fun _ => true) \/
  handle_message (fun s => s) (fun s => s) (fun _ => true) (fun _ => true)
    "Alice"
  = reply_text (fun _ => true) (mk_reply TOO_FEW_PLAYERS None).
Proof. apply needs_a_comma. reflexivity. Defined.
